(** * Region resolution: [DataLoader.merge_with_bundesland]

    A shallow embedding of
    [Refactoring2/src/data_processing/data_loader.py], lines 187-259:
    the method that adds a [bundesland] column to a facility table by
    looking the cleaned city name up in a city -> Bundesland table, first
    exactly and then by a character-set similarity.

    The method works on pandas objects that are shared with its caller, it
    mutates a private copy, it logs, and its whole body sits in a
    [try ... except Exception].  The embedding therefore is a small state
    and exception monad over a store of DataFrames and a log.

    The file has three parts: the embedding (the method, line by line, and
    the same computation as plain functions); the proof that the method, run
    on any store, computes what the plain functions say ([merge_runs]); and
    the properties of the specification, C1 to C10. *)

From Stdlib Require Import Ascii QArith.QArith_base Lqa.
From stdpp Require Import gmap strings list fin_maps.

Local Open Scope string_scope.
Local Open Scope list_scope.
Local Open Scope nat_scope.

(** ** Python strings

    A Python 3 [str] is a sequence of Unicode code points; [set(s)] is the
    set of its code points. *)

Abbreviation char := N.
Abbreviation pystr := (list char).

(** Rocq string literals denote ASCII [str] values. *)
Fixpoint py (s : string) : pystr :=
  match s with
  | EmptyString => []
  | String a r => Ascii.N_of_ascii a :: py r
  end.

(** [str.lower] and the whitespace test behind [str.strip] are defined by
    the Unicode tables of the Python runtime, which are not part of the
    repository: they are parameters of the development. *)
Class Unicode := {
  str_lower : pystr → pystr;
  isspace : char → bool
}.

(** The ASCII fragment of these tables (what CPython does on code points
    below 128), used to run the model on concrete inputs. *)
Definition ascii_lower_char (c : char) : char :=
  if ((65 <=? c) && (c <=? 90))%N then (c + 32)%N else c.

Definition ascii_isspace (c : char) : bool :=
  ((9 <=? c) && (c <=? 13) || (28 <=? c) && (c <=? 32))%N.

#[export] Instance ascii_unicode : Unicode := {|
  str_lower := map ascii_lower_char;
  isspace := ascii_isspace
|}.

(** ** Exceptions and results *)

Inductive key :=
  | Column (name : string)
  | Label (i : nat)
  | DictKey (k : list N).

Inductive exn :=
  | KeyError (k : key)
  | ZeroDivisionError.

Inductive result (A : Type) :=
  | Ret (a : A)
  | Raise (e : exn).
Arguments Ret {A} a.
Arguments Raise {A} e.

#[export] Instance key_eq_dec : EqDecision key.
Proof. solve_decision. Defined.
#[export] Instance exn_eq_dec : EqDecision exn.
Proof. solve_decision. Defined.

#[export] Instance result_ret : MRet result := @Ret.
#[export] Instance result_bind : MBind result := λ A B k r,
  match r with
  | Ret a => k a
  | Raise e => Raise e
  end.

(** ** Tables

    A cell of an object column holds a [str] or is missing ([NaN]/[None]);
    a Series is the list of its cells in row order (default integer index:
    label = position); a DataFrame is the list of its named columns in
    column order.

    These are the tables of the model: columns of object dtype under the
    default index.  pandas has others.  A column in which no cell is a
    [str] can be of dtype float64 ([read_csv] gives that dtype to a column
    of a file that is empty in every row), and on such a column the [.str]
    accessor of lines 208 and 210 raises [AttributeError]; with repeated
    index labels the [.loc] of line 224 yields a Series and line 225 raises
    [ValueError].  Neither exception is in the model.  The [except] of line
    257 catches both, so that what is proved of every outcome of the [try]
    body holds of them too; a theorem that concludes that the body completes
    names the columns that must hold a [str] ([has_str] below). *)

Abbreviation cell := (option pystr).
Abbreviation Series := (list cell).
Abbreviation DataFrame := (list (string * Series)).

(** [df[name]], when the column exists. *)
Fixpoint lookup_col (name : string) (df : DataFrame) : option Series :=
  match df with
  | [] => None
  | (n, c) :: r => if decide (n = name) then Some c else lookup_col name r
  end.

(** [len(df)]: the number of rows. *)
Definition nrows (df : DataFrame) : nat :=
  match df with
  | [] => 0
  | (_, s) :: _ => length s
  end.

(** [df.empty]: no rows or no columns. *)
Definition empty (df : DataFrame) : bool :=
  match df with
  | [] => true
  | _ => Nat.eqb (nrows df) 0
  end.

(** [df[name] = s]: overwrite the column in place, or append it. *)
Fixpoint set_col (name : string) (s : Series) (df : DataFrame) : DataFrame :=
  match df with
  | [] => [(name, s)]
  | (n, c) :: r =>
      if decide (n = name) then (n, s) :: r else (n, c) :: set_col name s r
  end.

(** The frame of [df.drop(columns=[name])]. *)
Definition remove_col (name : string) (df : DataFrame) : DataFrame :=
  filter (λ p, p.1 ≠ name) df.

Section Resolver.
Context `{Unicode}.

(** ** Normalisation: [.str.strip().str.lower()] *)

Fixpoint lstrip (s : pystr) : pystr :=
  match s with
  | [] => []
  | c :: r => if isspace c then lstrip r else s
  end.

Definition rstrip (s : pystr) : pystr := reverse (lstrip (reverse s)).

Definition strip (s : pystr) : pystr := rstrip (lstrip s).

(** The [.str] accessor, on a column of object dtype, works cell by cell
    and keeps missing cells. *)
Definition str_strip (s : Series) : Series := (λ c : cell, strip <$> c) <$> s.
Definition str_lower_series (s : Series) : Series :=
  (λ c : cell, str_lower <$> c) <$> s.

Definition clean (s : Series) : Series := str_lower_series (str_strip s).

(** The cleaned form of one present city name. *)
Definition normalize (s : pystr) : pystr := str_lower (strip s).

End Resolver.

(** ** The similarity score (line 233)

    [len(set(a) & set(b)) / max(len(set(a)), len(set(b)))].

    Python divides two [int]s into a [float].  Both are at most the number
    of Unicode code points (below 2^21), so the double nearest to the
    quotient compares with 0.5 and with any other such quotient exactly as
    the rational does: the score is modelled as that rational. *)

Definition char_set (s : pystr) : gset char := list_to_set s.

Definition score (a b : pystr) : result Q :=
  let common := size (char_set a ∩ char_set b) in
  let larger := Nat.max (size (char_set a)) (size (char_set b)) in
  if Nat.eqb larger 0 then Raise ZeroDivisionError
  else Ret (Z.of_nat common # Pos.of_nat larger).

(** Python's [x > y] on scores. *)
Definition Qgtb (x y : Q) : bool := negb (Qle_bool x y).


(** ** The store, the log and the monad *)

Inductive log_entry :=
  | Warning_empty
      (* "One of the DataFrames is empty, returning original df" *)
  | Info_fuzzy_attempt (unmatched : nat)
      (* "Attempting fuzzy matching for {n} unmatched cities" *)
  | Debug_fuzzy_matched (city_name best_match : pystr) (region : cell)
  | Info_merge_results (matched_rows total_rows : nat)
      (* "Bundesland merge results: {matched}/{total} (...) matched" *)
  | Warning_sample_unmatched (cities : list cell)
      (* "Sample unmatched cities: [...]" *)
  | Error_merging (e : exn).
      (* "Error merging with Bundesland data: {e}" *)

(** A Python variable holds a reference; [loc] is the position of the
    object in the store.  Objects are never freed. *)
Abbreviation loc := nat.

Record state := State {
  heap : list DataFrame;
  log : list log_entry
}.

(** [None] is a computation that left the model (a dangling reference);
    [Raise e] is a Python exception on its way up. *)
Definition M (A : Type) : Type := state → option (result A * state).

Definition ret {A} (a : A) : M A := λ s, Some (Ret a, s).
Definition raise {A} (e : exn) : M A := λ s, Some (Raise e, s).
Definition lift {A} (r : result A) : M A := λ s, Some (r, s).

Definition bind {A B} (m : M A) (k : A → M B) : M B := λ s,
  match m s with
  | Some (Ret a, s') => k a s'
  | Some (Raise e, s') => Some (Raise e, s')
  | None => None
  end.

#[export] Instance M_ret : MRet M := @ret.
#[export] Instance M_bind : MBind M := λ A B k m, bind m k.

(** [try: body  except Exception as e: handler(e)] *)
Definition try_except {A} (body : M A) (handler : exn → M A) : M A := λ s,
  match body s with
  | Some (Raise e, s') => handler e s'
  | r => r
  end.

Definition logger (e : log_entry) : M unit := λ s,
  Some (Ret tt, State (heap s) (log s ++ [e])).

Definition deref (l : loc) : M DataFrame := λ s,
  match heap s !! l with
  | Some d => Some (Ret d, s)
  | None => None
  end.

Definition alloc (d : DataFrame) : M loc := λ s,
  Some (Ret (length (heap s)), State (heap s ++ [d]) (log s)).

Definition store (l : loc) (d : DataFrame) : M unit := λ s,
  if decide (l < length (heap s))
  then Some (Ret tt, State (<[l := d]> (heap s)) (log s))
  else None.

(** [for x in l: body(x)] *)
Fixpoint for_each {A} (l : list A) (body : A → M unit) : M unit :=
  match l with
  | [] => ret tt
  | x :: r => bind (body x) (λ _, for_each r body)
  end.

(** ** pandas operations on stored frames *)

(** [df.copy()]: a new object with the same contents. *)
Definition copy (l : loc) : M loc := d ← deref l; alloc d.

(** [df[name]] *)
Definition getitem (l : loc) (name : string) : M Series :=
  d ← deref l;
  match lookup_col name d with
  | Some s => ret s
  | None => raise (KeyError (Column name))
  end.

(** [df[name] = s], in place. *)
Definition setitem (l : loc) (name : string) (s : Series) : M unit :=
  d ← deref l; store l (set_col name s d).

(** [df.drop(columns=[name])]: a new object; [KeyError] when there is no
    such column. *)
Definition drop_columns (l : loc) (name : string) : M loc :=
  d ← deref l;
  match lookup_col name d with
  | Some _ => alloc (remove_col name d)
  | None => raise (KeyError (Column name))
  end.

(** [df.loc[idx, name]] *)
Definition loc_get (l : loc) (idx : nat) (name : string) : M cell :=
  s ← getitem l name;
  match s !! idx with
  | Some c => ret c
  | None => raise (KeyError (Label idx))
  end.

(** [df.loc[idx, name] = v], in place, for an existing row and column.
    (On a new label or column pandas enlarges the frame; the method only
    writes to rows and to a column that exist, see [merge_runs], and the
    enlargement is left out of the model.) *)
Definition loc_set (l : loc) (idx : nat) (name : string) (v : cell) : M unit :=
  d ← deref l;
  match lookup_col name d with
  | Some s =>
      if decide (idx < length s) then store l (set_col name (<[idx := v]> s) d)
      else λ _, None
  | None => λ _, None
  end.

(** [len(df)] *)
Definition len (l : loc) : M nat := d ← deref l; ret (nrows d).

(** ** Series helpers *)

Definition isna (s : Series) : list bool := (λ c : cell, bool_decide (c = None)) <$> s.
Definition notna (s : Series) : list bool := (λ c : cell, bool_decide (c ≠ None)) <$> s.

(** [mask.sum()] *)
Definition mask_sum (mask : list bool) : nat := length (filter (λ b, b = true) mask).

(** The index labels of [df[mask]]. *)
Fixpoint masked_index_from (i : nat) (mask : list bool) : list nat :=
  match mask with
  | [] => []
  | b :: r => if b then i :: masked_index_from (S i) r else masked_index_from (S i) r
  end.
Definition masked_index (mask : list bool) : list nat := masked_index_from 0 mask.

(** The cells of [s[mask]]. *)
Fixpoint mask_select (mask : list bool) (s : Series) : Series :=
  match mask, s with
  | b :: m, c :: r => if b then c :: mask_select m r else mask_select m r
  | _, _ => []
  end.

(** [s.unique()]: the distinct cells in order of first appearance. *)
Fixpoint unique_from (seen : list cell) (s : Series) : Series :=
  match s with
  | [] => []
  | c :: r =>
      if decide (c ∈ seen) then unique_from seen r
      else c :: unique_from (c :: seen) r
  end.
Definition unique (s : Series) : Series := unique_from [] s.

(** [dict(zip(keys, values))]: pairs are inserted in order, a later pair
    overwrites an earlier one with the same key. *)
Definition dict_zip (keys values : Series) : gmap cell cell :=
  foldl (λ m kv, <[kv.1 := kv.2]> m) ∅ (zip keys values).

(** [s.map(mapping)] with a plain dict: a cell that is no key of the dict
    becomes missing.  (pandas turns the dict into a Series and looks the
    cells up in its index, where a missing cell finds a missing key.) *)
Definition series_map (mapping : gmap cell cell) (s : Series) : Series :=
  (λ c : cell, default None (mapping !! c)) <$> s.

(** [mapping[k]] *)
Definition dict_getitem (mapping : gmap cell cell) (k : pystr) : result cell :=
  match mapping !! Some k with
  | Some v => Ret v
  | None => Raise (KeyError (DictKey k))
  end.

(** ** [DataLoader.merge_with_bundesland] *)

(** Lines 227-236: the scan of one city name over the candidates; the pair
    is the local variables [(best_match, best_score)].  The scan touches
    neither the store nor the log. *)
Definition scan_step (city_name : pystr) (best : option pystr * Q)
    (available_city : cell) : result (option pystr * Q) :=
  match available_city with
  | Some a =>                                     (* pd.notna(available_city) *)
      sc ← score city_name a;
      if Qgtb sc best.2 && Qgtb sc (1 # 2) then Ret (Some a, sc)
      else Ret best
  | None => Ret best
  end.

Fixpoint scan_from (city_name : pystr) (candidates : Series)
    (best : option pystr * Q) : result (option pystr * Q) :=
  match candidates with
  | [] => Ret best
  | a :: r => best' ← scan_step city_name best a; scan_from city_name r best'
  end.

Definition scan_candidates (city_name : pystr) (candidates : Series)
    : result (option pystr * Q) :=
  scan_from city_name candidates (None, 0%Q).

(** Lines 224-240: the body of the loop over the unmatched rows.
    [if best_match:] holds for a [str] that is not empty. *)
Definition fuzzy_row (df_enhanced cities_clean : loc) (clean_column : string)
    (city_bundesland_mapping : gmap cell cell) (idx : nat) : M unit :=
  city_name ← loc_get df_enhanced idx clean_column;
  match city_name with
  | Some name =>                                  (* pd.notna(city_name) *)
      stadt_clean ← getitem cities_clean "Stadt_clean";
      best ← lift (scan_candidates name (unique stadt_clean));
      match best.1 with
      | Some (ch :: rest) =>
          let best_match := ch :: rest in
          region ← lift (dict_getitem city_bundesland_mapping best_match);
          loc_set df_enhanced idx "bundesland" region;;
          region' ← lift (dict_getitem city_bundesland_mapping best_match);
          logger (Debug_fuzzy_matched name best_match region')
      | _ => ret tt
      end
  | None => ret tt
  end.

(** Lines 219-240: the fuzzy fallback over the rows the exact pass left
    without a region. *)
Definition fuzzy_fallback (df_enhanced cities_clean : loc) (clean_column : string)
    (city_bundesland_mapping : gmap cell cell) : M unit :=
  bundesland ← getitem df_enhanced "bundesland";
  let unmatched_mask := isna bundesland in
  if decide (0 < mask_sum unmatched_mask) then
    logger (Info_fuzzy_attempt (mask_sum unmatched_mask));;
    for_each (masked_index unmatched_mask)
      (fuzzy_row df_enhanced cities_clean clean_column city_bundesland_mapping)
  else ret tt.

(** Lines 243-255: drop the temporary column, log the statistics, return.
    ([matched_rows] is a numpy integer, and [total_rows] is not 0 on a table
    that is not empty: the division of line 248 raises nothing.) *)
Definition finish (df_enhanced : loc) (df_city_column clean_column : string)
    : M loc :=
  df_enhanced ← drop_columns df_enhanced clean_column;
  total_rows ← len df_enhanced;
  bundesland ← getitem df_enhanced "bundesland";
  let matched_rows := mask_sum (notna bundesland) in
  logger (Info_merge_results matched_rows total_rows);;
  (if decide (matched_rows < total_rows) then
     bundesland ← getitem df_enhanced "bundesland";
     cities ← getitem df_enhanced df_city_column;
     logger (Warning_sample_unmatched
               (take 5 (unique (mask_select (isna bundesland) cities))))
   else ret tt);;
  ret df_enhanced.

Section Merge.
Context `{Unicode}.

(** Lines 200-255: the body of the [try]. *)
Definition merge_body (df cities_df : loc) (df_city_column : string) : M loc :=
  d ← deref df;
  c ← deref cities_df;
  if empty d || empty c then
    logger Warning_empty;;
    ret df
  else
    let clean_column := df_city_column +:+ "_clean" in
    df_enhanced ← copy df;
    raw ← getitem df_enhanced df_city_column;
    setitem df_enhanced clean_column (clean raw);;
    cities_clean ← copy cities_df;
    stadt ← getitem cities_clean "Stadt";
    setitem cities_clean "Stadt_clean" (clean stadt);;
    keys ← getitem cities_clean "Stadt_clean";
    values ← getitem cities_clean "Bundesland";
    let city_bundesland_mapping := dict_zip keys values in
    cleaned ← getitem df_enhanced clean_column;
    setitem df_enhanced "bundesland" (series_map city_bundesland_mapping cleaned);;
    fuzzy_fallback df_enhanced cities_clean clean_column city_bundesland_mapping;;
    finish df_enhanced df_city_column clean_column.

(** Lines 199-259: the method. *)
Definition merge_with_bundesland (df cities_df : loc) (df_city_column : string)
    : M loc :=
  try_except (merge_body df cities_df df_city_column)
    (λ e, logger (Error_merging e);; ret df).

End Merge.

(** ** What the method computes

    The same computation without the store: the cell the fuzzy pass writes
    for one row, the [bundesland] column after the loop, the log lines of
    the statistics, and the outcome of the [try] body.  [merge_runs] below
    proves that the method run on any store yields exactly this. *)

(** The assignment of lines 238-240 for one cleaned city name, if any. *)
Definition fuzzy_choice (mapping : gmap cell cell) (candidates : Series)
    (city_name : cell) : result (option (pystr * pystr * cell)) :=
  match city_name with
  | Some name =>
      best ← scan_candidates name candidates;
      match best.1 with
      | Some (ch :: rest) =>
          region ← dict_getitem mapping (ch :: rest);
          Ret (Some (name, ch :: rest, region))
      | _ => Ret None
      end
  | None => Ret None
  end.

(** The [bundesland] column and the debug lines after the loop of lines
    223-240 over the rows [idxs]. *)
Fixpoint fuzzy_pass (mapping : gmap cell cell) (candidates cleaned : Series)
    (idxs : list nat) (bundesland : Series) : result Series * list log_entry :=
  match idxs with
  | [] => (Ret bundesland, [])
  | idx :: r =>
      match cleaned !! idx with
      | None => (Raise (KeyError (Label idx)), [])
      | Some city_name =>
          match fuzzy_choice mapping candidates city_name with
          | Raise e => (Raise e, [])
          | Ret None => fuzzy_pass mapping candidates cleaned r bundesland
          | Ret (Some (name, best_match, region)) =>
              let '(res, lg) :=
                fuzzy_pass mapping candidates cleaned r (<[idx := region]> bundesland) in
              (res, Debug_fuzzy_matched name best_match region :: lg)
          end
      end
  end.

(** Lines 219-240: the loop runs over the rows without a region, when
    there is one. *)
Definition fuzzy_phase (mapping : gmap cell cell) (candidates cleaned : Series)
    (exact : Series) : result Series * list log_entry :=
  if decide (0 < mask_sum (isna exact)) then
    let '(res, lg) :=
      fuzzy_pass mapping candidates cleaned (masked_index (isna exact)) exact in
    (res, Info_fuzzy_attempt (mask_sum (isna exact)) :: lg)
  else (Ret exact, []).

(** Lines 245-253. *)
Definition report (total_rows : nat) (bundesland cities : Series)
    : list log_entry :=
  let matched_rows := mask_sum (notna bundesland) in
  Info_merge_results matched_rows total_rows ::
  if decide (matched_rows < total_rows)
  then [Warning_sample_unmatched
          (take 5 (unique (mask_select (isna bundesland) cities)))]
  else [].

Inductive outcome :=
  | Unchanged                    (* line 202: [return df] *)
  | Enriched (d' : DataFrame)    (* line 255: [return df_enhanced] *)
  | Failed (e : exn).            (* an exception left the [try] body *)

Section Pure.
Context `{Unicode}.

(** The frame of line 243 for a final [bundesland] column. *)
Definition enriched_frame (d : DataFrame) (df_city_column : string)
    (cleaned bundesland : Series) : DataFrame :=
  remove_col (df_city_column +:+ "_clean")
    (set_col "bundesland" bundesland
       (set_col (df_city_column +:+ "_clean") cleaned d)).

Definition merge_pure (d c : DataFrame) (df_city_column : string)
    : outcome * list log_entry :=
  if empty d || empty c then (Unchanged, [Warning_empty])
  else
    match lookup_col df_city_column d with
    | None => (Failed (KeyError (Column df_city_column)), [])
    | Some raw =>
    match lookup_col "Stadt" c with
    | None => (Failed (KeyError (Column "Stadt")), [])
    | Some stadt =>
    match lookup_col "Bundesland" c with
    | None => (Failed (KeyError (Column "Bundesland")), [])
    | Some values =>
        let mapping := dict_zip (clean stadt) values in
        let cleaned := clean raw in
        let exact := series_map mapping cleaned in
        match fuzzy_phase mapping (unique (clean stadt)) cleaned exact with
        | (Raise e, lg1) => (Failed e, lg1)
        | (Ret bundesland, lg1) =>
            let d' := enriched_frame d df_city_column cleaned bundesland in
            let cities :=
              if decide (df_city_column = "bundesland") then bundesland else raw in
            (Enriched d', lg1 ++ report (nrows d') bundesland cities)
        end
    end end end.

(** The log line of the handler (line 258). *)
Definition handler_log (o : outcome) : list log_entry :=
  match o with
  | Failed e => [Error_merging e]
  | _ => []
  end.

End Pure.

(** ** The measure in the words of the specification *)

(** The measure in the words of the specification: the number of distinct
    characters the two names share, over the larger of their numbers of
    distinct characters. *)
Definition distinct_chars (s : pystr) : list char := remove_dups s.

Definition shared_chars (a b : pystr) : list char :=
  filter (λ ch, ch ∈ b) (distinct_chars a).

Definition spec_score (a b : pystr) : Q :=
  Z.of_nat (length (shared_chars a b))
  # Pos.of_nat (Nat.max (length (distinct_chars a)) (length (distinct_chars b))).

(** The parts of a character-set Jaccard index, for comparison. *)
Definition union_size (a b : pystr) : nat := length (distinct_chars (a ++ b)).

(** ** Well-formed frames *)

(** In a DataFrame every column has one cell per row. *)
Definition well_formed (df : DataFrame) : Prop :=
  Forall (λ p, length p.2 = nrows df) df.

(** A column that holds a [str] in some row is of object dtype, whatever
    made the table: the [.str] accessor works on it. *)
Definition has_str (s : Series) : Prop := Exists is_Some s.

(** ** Reported statistics *)

(** The method returns no statistics record; what it reports of a run are
    its log lines.  [statistics_of] reads the counts off them: the rows
    counted, the rows with a region, the fuzzy assignments, and the sample of
    unmatched city values. *)
Definition statistics_of (lg : list log_entry) : nat * nat * nat * list cell :=
  foldr (λ e '(total, matched, fuzzy, sample),
           match e with
           | Info_merge_results m t => (total + t, matched + m, fuzzy, sample)
           | Debug_fuzzy_matched _ _ _ => (total, matched, S fuzzy, sample)
           | Warning_sample_unmatched cs => (total, matched, fuzzy, cs ++ sample)
           | _ => (total, matched, fuzzy, sample)
           end)
        (0, 0, 0, []) lg.

(** ** Concrete tables *)

Module Examples.

Definition Berlin : pystr := py "Berlin".
Definition Bayern : pystr := py "Bayern".
Definition BerlinAlt : pystr := py "BerlinAlt".
(** "München": the code point of "ü" is 252. *)
Definition Muenchen_umlaut : pystr := py "M" ++ [252%N] ++ py "nchen".

(** Three facilities: an exact match up to case and blanks, a misspelt
    city, a missing city. *)
Definition parks : DataFrame :=
  [("name", [Some (py "Tiergarten"); Some (py "Englischer Garten"); Some (py "Nameless")]);
   ("city", [Some (py "berlin "); Some (py "Muenchen"); None])].

Definition cities : DataFrame :=
  [("Stadt", [Some Berlin; Some Muenchen_umlaut]);
   ("Bundesland", [Some Berlin; Some Bayern])].

(** The reference table of scenario 5: two rows for "Berlin". *)
Definition cities_twice : DataFrame :=
  [("Stadt", [Some Berlin; Some Berlin]);
   ("Bundesland", [Some Berlin; Some BerlinAlt])].

Definition no_cities : DataFrame := [("Stadt", []); ("Bundesland", [])].

(** A facility with an empty city and a reference row whose name is blank. *)
Definition blank_parks : DataFrame := [("city", [Some (py "")])].
Definition blank_city_no_region : DataFrame :=
  [("Stadt", [Some (py " ")]); ("Bundesland", [None])].

(** Two rows for "Berlin" and a row without a region. *)
Definition cities_twice_gap : DataFrame :=
  [("Stadt", [Some Berlin; Some Berlin; Some (py "Bonn")]);
   ("Bundesland", [Some Berlin; Some BerlinAlt; None])].



(** A caller's store that holds a facility table and a city table. *)
Definition store_of (d c : DataFrame) : state := State [d; c] [].

End Examples.
Import Examples.

(** * More of the code *)

(** ** The region of one row

    What lines 216-239 give a row whose cleaned city is [city]: the region
    the mapping holds for it, or else the region of the best match of the
    scan.  [fuzzy_phase_rowwise] below proves that the column the method
    computes is this, row by row. *)
Definition region_for (mapping : gmap cell cell) (candidates : Series)
    (city : cell) : result cell :=
  match default None (mapping !! city) with
  | Some g => Ret (Some g)
  | None =>
      choice ← fuzzy_choice mapping candidates city;
      match choice with
      | Some (_, _, region) => Ret region
      | None => Ret None
      end
  end.

(** ** The callers of the method

    [main.py] and the loaders of [data_loader.py] work on the same store.
    They write log lines of their own between those of
    [merge_with_bundesland]; their log keeps both, in the order in which
    they are written. *)

Inductive facility := Parks | Cemetery.

Inductive app_entry :=
  | Merge_line (e : log_entry)
      (* a line of [merge_with_bundesland] *)
  | Info_loading_cities
      (* "Loading cities data..." *)
  | Info_loading (what : facility)
      (* "Loading parks data..." *)
  | Info_adding_bundesland (what : facility)
      (* "Adding Bundesland information to parks data..." *)
  | Warning_no_city_column (what : facility) (columns : list string)
      (* "No city column found in parks data. Available columns: [...]" *)
  | Warning_cities_empty
      (* "Cities data is empty, cannot add Bundesland information" *)
  | Warning_no_bundesland_column (columns : list string)
      (* "No 'bundesland' column found in data with columns: [...]" *)
  | Error_filtering (bundesland_name : pystr) (e : exn).
      (* "Error filtering data for {bundesland_name}: {e}" *)

Record app_state := AppState {
  app_heap : list DataFrame;
  app_log : list app_entry
}.

Definition App (A : Type) : Type := app_state → option (result A * app_state).

Definition app_bind {A B} (m : App A) (k : A → App B) : App B := λ s,
  match m s with
  | Some (Ret a, s') => k a s'
  | Some (Raise e, s') => Some (Raise e, s')
  | None => None
  end.

#[export] Instance App_ret : MRet App := λ A a s, Some (Ret a, s).
#[export] Instance App_bind : MBind App := λ A B k m, app_bind m k.

(** [try: body  except Exception as e: handler(e)] *)
Definition app_try {A} (body : App A) (handler : exn → App A) : App A := λ s,
  match body s with
  | Some (Raise e, s') => handler e s'
  | r => r
  end.

Definition say (e : app_entry) : App unit := λ s,
  Some (Ret tt, AppState (app_heap s) (app_log s ++ [e])).

(** A computation of the loader's monad, run on the store of the caller:
    the lines it logs are appended to the caller's log. *)
Definition run_M {A} (m : M A) : App A := λ s,
  match m (State (app_heap s) []) with
  | Some (r, s') =>
      Some (r, AppState (heap s') (app_log s ++ (Merge_line <$> log s')))
  | None => None
  end.

(** [df.columns.tolist()] *)
Definition columns (df : DataFrame) : list string := df.*1.

(** The frame of [df[mask]]: the rows where the mask holds, in every
    column. *)
Definition rows_where (mask : list bool) (df : DataFrame) : DataFrame :=
  (λ p : string * Series, (p.1, mask_select mask p.2)) <$> df.

(** The frame of [df.iloc[0:0]]: the columns, without any row. *)
Definition no_rows (df : DataFrame) : DataFrame :=
  (λ p : string * Series, (p.1, [])) <$> df.

(** [s == value] for a [str]: a missing cell is not equal to it. *)
Definition eq_mask (s : Series) (value : pystr) : list bool :=
  (λ c : cell, bool_decide (c = Some value)) <$> s.

(** [df[mask]] and [df.iloc[0:0]]: new objects. *)
Definition getrows (l : loc) (mask : list bool) : M loc :=
  d ← deref l; alloc (rows_where mask d).
Definition iloc_none (l : loc) : M loc :=
  d ← deref l; alloc (no_rows d).

(** [main.py], lines 168-180 (and [streamlit_sens.py], lines 141-153). *)
Definition _filter_data_by_bundesland (gdf : loc) (bundesland_name : pystr)
    : App loc :=
  app_try
    (d ← run_M (deref gdf);
     if empty d || negb (bool_decide ("bundesland" ∈ columns d)) then
       say (Warning_no_bundesland_column (columns d));;
       run_M (iloc_none gdf)
     else
       bundesland ← run_M (getitem gdf "bundesland");
       selected ← run_M (getrows gdf (eq_mask bundesland bundesland_name));
       run_M (copy selected))
    (λ e, say (Error_filtering bundesland_name e);; run_M (iloc_none gdf)).

(** A caller's store that holds one table. *)
Definition app_store_of (d : DataFrame) : app_state := AppState [d] [].

(** A facility table that has its regions: two parks in Berlin, one without
    a region. *)
Definition parks_with_regions : DataFrame :=
  [("name", [Some (py "Tiergarten"); Some (py "Isar"); Some (py "Spree")]);
   ("bundesland", [Some Berlin; None; Some Berlin])].

(** ** The loaders ([data_loader.py], lines 102-116 and 262-341)

    [load_parks_data] and [load_cemetery_data] are defined twice in the
    class; the later definitions, modelled here, are the ones in force.
    Their bodies differ in the file they read and in the wording of their
    log lines only: [load_with_bundesland] is that body.

    Reading a file, parsing geometries and building a GeoDataFrame are left
    to the libraries: [load_csv_data], [process_geometry_column] and
    [create_geodataframe] are arbitrary computations on the store, and
    [to_numeric] is an arbitrary function on columns.  A GeoDataFrame is a
    DataFrame; the loaders only pass on the cells of the columns they do not
    clean. *)

(** [config/settings.py] *)
Definition PARKS_DATA_FILE : string := "Parks_Deutschland_all.csv".
Definition CEMETERY_DATA_FILE : string := "Friedhöfe_Deutschland_all.csv".
Definition CITIES_DATA_FILE : string := "staedte_erweitert.csv".

Definition data_file (what : facility) : string :=
  match what with
  | Parks => PARKS_DATA_FILE
  | Cemetery => CEMETERY_DATA_FILE
  end.

(** Lines 280-285: the first candidate that is a column of the table. *)
Definition possible_city_columns : list string :=
  ["city"; "City"; "name"; "Name"; "stadt"; "Stadt"].

Fixpoint first_column (candidates columns : list string) : option string :=
  match candidates with
  | [] => None
  | col :: rest =>
      if bool_decide (col ∈ columns) then Some col
      else first_column rest columns
  end.

Section Loaders.
Context `{Unicode}.
Variable load_csv_data : string → App loc.
Variable process_geometry_column : loc → App loc.
Variable create_geodataframe : loc → App loc.
Variable to_numeric : Series → Series.

(** Lines 102-116.  Nothing is caught here: a missing column raises
    [KeyError] to the caller. *)
Definition load_cities_data : App loc :=
  say Info_loading_cities;;
  cities_df ← load_csv_data CITIES_DATA_FILE;
  d ← run_M (deref cities_df);
  if empty d then run_M (alloc [])
  else
    stadt ← run_M (getitem cities_df "Stadt");
    run_M (setitem cities_df "Stadt" (str_strip stadt));;
    bundesland ← run_M (getitem cities_df "Bundesland");
    run_M (setitem cities_df "Bundesland" (str_strip bundesland));;
    latitude ← run_M (getitem cities_df "Latitude");
    run_M (setitem cities_df "Latitude" (to_numeric latitude));;
    longitude ← run_M (getitem cities_df "Longitude");
    run_M (setitem cities_df "Longitude" (to_numeric longitude));;
    mret cities_df.

(** Lines 276-298 (and 317-339): the regions are added to the table and to
    the GeoDataFrame. *)
Definition add_bundesland (what : facility)
    (facility_df facility_gdf cities_df : loc) : App (loc * loc) :=
  c ← run_M (deref cities_df);
  if negb (empty c) then
    say (Info_adding_bundesland what);;
    d ← run_M (deref facility_df);
    match first_column possible_city_columns (columns d) with
    | Some city_column =>
        facility_df ←
          run_M (merge_with_bundesland facility_df cities_df city_column);
        gd ← run_M (deref facility_gdf);
        if negb (empty gd) then
          facility_gdf ←
            run_M (merge_with_bundesland facility_gdf cities_df city_column);
          mret (facility_df, facility_gdf)
        else mret (facility_df, facility_gdf)
    | None =>
        say (Warning_no_city_column what (columns d));;
        mret (facility_df, facility_gdf)
    end
  else
    say Warning_cities_empty;;
    mret (facility_df, facility_gdf).

(** Lines 263-300 (and 304-341); the result is the pair of the ["df"] and
    the ["gdf"] entry of the returned dict. *)
Definition load_with_bundesland (what : facility) : App (loc * loc) :=
  say (Info_loading what);;
  facility_df ← load_csv_data (data_file what);
  d ← run_M (deref facility_df);
  if empty d then
    df ← run_M (alloc []);
    gdf ← run_M (alloc []);
    mret (df, gdf)
  else
    cities_df ← load_cities_data;
    facility_df ← process_geometry_column facility_df;
    facility_gdf ← create_geodataframe facility_df;
    add_bundesland what facility_df facility_gdf cities_df.

Definition load_parks_data : App (loc * loc) := load_with_bundesland Parks.
Definition load_cemetery_data : App (loc * loc) := load_with_bundesland Cemetery.

End Loaders.

(** A facility table without a [city] column: its [name] column comes
    before its [stadt] column among the candidates. *)
Definition parks_by_name : DataFrame :=
  [("stadt", [Some (py "Berlin"); Some (py "Muenchen")]);
   ("name", [Some (py "Tiergarten"); Some (py "Englischer Garten")])].

(** A city file as it is read, and a file reader that gives it for the
    city file and the table [facilities] for any other file. *)
Definition cities_file : DataFrame :=
  [("Stadt", [Some (py " Berlin"); Some Muenchen_umlaut]);
   ("Bundesland", [Some (py "Berlin "); Some Bayern]);
   ("Latitude", [Some (py "52.52"); Some (py "48.14")]);
   ("Longitude", [Some (py "13.40"); Some (py "11.58")])].

Definition read_files (cities_table facilities : DataFrame) (file : string)
    : App loc :=
  run_M (alloc (if decide (file = CITIES_DATA_FILE) then cities_table
                else facilities)).

(** * Proofs *)

(** ** Running the primitives *)

Section Run.
Context {A : Type}.
Implicit Types (h t : list DataFrame) (lg : list log_entry) (k : loc → M A).

Lemma run_logger e (k : unit → M A) hp lg :
  bind (logger e) k (State hp lg) = k tt (State hp (lg ++ [e])).
Proof. reflexivity. Qed.

Lemma run_ret {B} (b : B) (k : B → M A) s : bind (ret b) k s = k b s.
Proof. reflexivity. Qed.

Lemma run_lift_ret {B} (b : B) (k : B → M A) s : bind (lift (Ret b)) k s = k b s.
Proof. reflexivity. Qed.

Lemma bind_assoc {B C} (m : M B) (f : B → M C) (k : C → M A) s :
  bind (bind m f) k s = bind m (λ b, bind (f b) k) s.
Proof. unfold bind. by destruct (m s) as [[[b|e] s']|]. Qed.

Lemma run_lift_raise {B} e (k : B → M A) s :
  bind (lift (Raise e)) k s = Some (Raise e, s).
Proof. reflexivity. Qed.

Lemma run_deref_old l x (k : DataFrame → M A) h t lg :
  h !! l = Some x →
  bind (deref l) k (State (h ++ t) lg) = k x (State (h ++ t) lg).
Proof.
  intros Hl. unfold bind, deref; simpl.
  by rewrite (lookup_app_l_Some _ _ _ _ Hl).
Qed.

Lemma run_deref_new i x (k : DataFrame → M A) h t lg :
  t !! i = Some x →
  bind (deref (length h + i)) k (State (h ++ t) lg) = k x (State (h ++ t) lg).
Proof.
  intros Hl. unfold bind, deref; simpl.
  by rewrite lookup_app_r, Nat.add_comm, Nat.add_sub, Hl by lia.
Qed.

Lemma run_copy_old l x k h t lg :
  h !! l = Some x →
  bind (copy l) k (State (h ++ t) lg)
  = k (length h + length t) (State (h ++ (t ++ [x])) lg).
Proof.
  intros Hl. unfold copy, mbind, M_bind.
  rewrite bind_assoc, (run_deref_old _ x) by done.
  unfold bind, alloc; simpl. by rewrite length_app, app_assoc.
Qed.

Lemma run_getitem i x name s (k : Series → M A) h t lg :
  t !! i = Some x → lookup_col name x = Some s →
  bind (getitem (length h + i) name) k (State (h ++ t) lg)
  = k s (State (h ++ t) lg).
Proof.
  intros Hl Hs. unfold getitem, mbind, M_bind.
  rewrite bind_assoc, (run_deref_new _ x) by done. by rewrite Hs.
Qed.

Lemma run_getitem_missing i x name (k : Series → M A) h t lg :
  t !! i = Some x → lookup_col name x = None →
  bind (getitem (length h + i) name) k (State (h ++ t) lg)
  = Some (Raise (KeyError (Column name)), State (h ++ t) lg).
Proof.
  intros Hl Hs. unfold getitem, mbind, M_bind.
  rewrite bind_assoc, (run_deref_new _ x) by done. by rewrite Hs.
Qed.

Lemma run_store i x (k : unit → M A) h t lg :
  i < length t →
  bind (store (length h + i) x) k (State (h ++ t) lg)
  = k tt (State (h ++ <[i := x]> t) lg).
Proof.
  intros Hi. unfold bind, store; simpl.
  rewrite decide_True by (rewrite length_app; lia).
  by rewrite insert_app_r.
Qed.

Lemma run_setitem i x name s (k : unit → M A) h t lg :
  t !! i = Some x →
  bind (setitem (length h + i) name s) k (State (h ++ t) lg)
  = k tt (State (h ++ <[i := set_col name s x]> t) lg).
Proof.
  intros Hl. unfold setitem, mbind, M_bind.
  rewrite bind_assoc, (run_deref_new _ x) by done.
  apply run_store. by eapply lookup_lt_Some.
Qed.

Lemma run_drop_columns i x name s k h t lg :
  t !! i = Some x → lookup_col name x = Some s →
  bind (drop_columns (length h + i) name) k (State (h ++ t) lg)
  = k (length h + length t) (State (h ++ (t ++ [remove_col name x])) lg).
Proof.
  intros Hl Hs. unfold drop_columns, mbind, M_bind.
  rewrite bind_assoc, (run_deref_new _ x) by done. rewrite Hs.
  unfold bind, alloc; simpl. by rewrite length_app, app_assoc.
Qed.

Lemma run_len i x (k : nat → M A) h t lg :
  t !! i = Some x →
  bind (len (length h + i)) k (State (h ++ t) lg) = k (nrows x) (State (h ++ t) lg).
Proof.
  intros Hl. unfold len, mbind, M_bind.
  by rewrite bind_assoc, (run_deref_new _ x) by done.
Qed.

End Run.

(** ** Columns of a frame *)

Lemma lookup_set_col_eq name s (d : DataFrame) :
  lookup_col name (set_col name s d) = Some s.
Proof.
  induction d as [|[n c] r IH]; simpl.
  - by rewrite decide_True.
  - destruct (decide (n = name)) as [->|Hne]; simpl.
    + by rewrite decide_True.
    + by rewrite decide_False.
Qed.

Lemma lookup_set_col_ne name name' s (d : DataFrame) :
  name ≠ name' → lookup_col name (set_col name' s d) = lookup_col name d.
Proof.
  intros Hne. induction d as [|[n c] r IH]; simpl.
  - by rewrite decide_False.
  - destruct (decide (n = name')) as [->|Hn]; simpl.
    + by rewrite !decide_False.
    + destruct (decide (n = name)); done.
Qed.

Lemma lookup_remove_col_ne name name' (d : DataFrame) :
  name ≠ name' → lookup_col name (remove_col name' d) = lookup_col name d.
Proof.
  intros Hne. unfold remove_col. induction d as [|[n c] r IH]; [done|].
  rewrite filter_cons; simpl. destruct (decide (n ≠ name')) as [Hn|Hn]; simpl.
  - by rewrite IH.
  - apply dec_stable in Hn as ->. by rewrite decide_False.
Qed.

Lemma lookup_remove_col_eq name (d : DataFrame) :
  lookup_col name (remove_col name d) = None.
Proof.
  unfold remove_col. induction d as [|[n c] r IH]; [done|].
  rewrite filter_cons; simpl. destruct (decide (n ≠ name)) as [Hn|Hn]; simpl.
  - by rewrite decide_False.
  - done.
Qed.

Lemma set_col_same name s (d : DataFrame) :
  lookup_col name d = Some s → set_col name s d = d.
Proof.
  induction d as [|[n c] r IH]; simpl; [done|].
  destruct (decide (n = name)); [by intros [= ->]|].
  intros Hl. by rewrite IH.
Qed.

Lemma set_col_twice name s1 s2 (d : DataFrame) :
  set_col name s2 (set_col name s1 d) = set_col name s2 d.
Proof.
  induction d as [|[n c] r IH]; simpl.
  - by rewrite decide_True.
  - destruct (decide (n = name)) as [->|Hne]; simpl.
    + by rewrite decide_True.
    + by rewrite decide_False, IH.
Qed.

Lemma clean_column_not_bundesland (col : string) : col +:+ "_clean" ≠ "bundesland".
Proof.
  intros Heq. assert (Hlen : String.length (col +:+ "_clean") = 10) by by rewrite Heq.
  do 5 (destruct col as [|? col]; [discriminate|]).
  simpl in Heq. injection Heq as _ _ _ _ _ Heq.
  destruct col; simpl in *; [discriminate|].
  injection Heq as _ Heq.
  do 4 (destruct col; simpl in *; [discriminate| injection Heq as _ Heq]).
  destruct col; discriminate.
Qed.

Lemma clean_column_fresh (col : string) : col ≠ col +:+ "_clean".
Proof.
  induction col as [|a col IH]; simpl; [discriminate|].
  intros [= Heq]. by apply IH.
Qed.

(** ** Running the fuzzy loop

    During the loop the store is [h ++ [E; C]]: the caller's objects [h],
    the private copy [E] of the facility table and the private copy [C] of
    the city table. *)

Section RunLoop.
Context {A : Type} (h : list DataFrame) (C : DataFrame) (cc : string)
  (mapping : gmap cell cell) (cleaned sc : Series).
Hypothesis cc_not_bundesland : cc ≠ "bundesland".
Hypothesis C_stadt_clean : lookup_col "Stadt_clean" C = Some sc.

Lemma run_loc_set idx v b (E : DataFrame) (k : unit → M A) lg :
  lookup_col "bundesland" E = Some b → idx < length b →
  bind (loc_set (length h + 0) idx "bundesland" v) k (State (h ++ [E; C]) lg)
  = k tt (State (h ++ [set_col "bundesland" (<[idx := v]> b) E; C]) lg).
Proof.
  intros Hb Hidx. unfold loc_set, mbind, M_bind.
  rewrite bind_assoc, (run_deref_new _ E) by done.
  rewrite Hb. case_decide; [|lia]. by rewrite (run_store 0) by (simpl; lia).
Qed.

Lemma run_fuzzy_row idx b (E : DataFrame) (k : unit → M A) lg :
  lookup_col cc E = Some cleaned →
  lookup_col "bundesland" E = Some b →
  idx < length b →
  bind (fuzzy_row (length h + 0) (length h + 1) cc mapping idx) k
    (State (h ++ [E; C]) lg)
  = match cleaned !! idx with
    | None => Some (Raise (KeyError (Label idx)), State (h ++ [E; C]) lg)
    | Some city_name =>
        match fuzzy_choice mapping (unique sc) city_name with
        | Raise e => Some (Raise e, State (h ++ [E; C]) lg)
        | Ret None => k tt (State (h ++ [E; C]) lg)
        | Ret (Some (name, best_match, region)) =>
            k tt (State (h ++ [set_col "bundesland" (<[idx := region]> b) E; C])
                    (lg ++ [Debug_fuzzy_matched name best_match region]))
        end
    end.
Proof.
  intros Hc Hb Hidx. unfold fuzzy_row, loc_get, mbind, M_bind.
  rewrite !bind_assoc, (run_getitem 0 E _ cleaned) by done.
  destruct (cleaned !! idx) as [[name|]|]; [| done..].
  rewrite run_ret; cbv beta iota.
  rewrite !bind_assoc, (run_getitem 1 C _ sc) by done.
  unfold fuzzy_choice, mbind, result_bind.
  destruct (scan_candidates name (unique sc)) as [[[[|ch rest]|] q]|e];
    rewrite ?bind_assoc, ?run_lift_ret, ?run_lift_raise; simpl; try done.
  unfold dict_getitem.
  destruct (mapping !! Some (ch :: rest)) as [region|];
    rewrite ?bind_assoc, ?run_lift_ret, ?run_lift_raise; [|done].
  rewrite !bind_assoc, (run_loc_set _ _ b) by done.
  by rewrite !bind_assoc, run_lift_ret.
Qed.

Lemma run_fuzzy_loop idxs : ∀ b (E : DataFrame) (k : unit → M A) lg,
  lookup_col cc E = Some cleaned →
  lookup_col "bundesland" E = Some b →
  Forall (λ i, i < length b) idxs →
  ∃ E',
    bind (for_each idxs (fuzzy_row (length h + 0) (length h + 1) cc mapping)) k
      (State (h ++ [E; C]) lg)
    = match fuzzy_pass mapping (unique sc) cleaned idxs b with
      | (Ret b', lg') =>
          k tt (State (h ++ [set_col "bundesland" b' E; C]) (lg ++ lg'))
      | (Raise e, lg') => Some (Raise e, State (h ++ [E'; C]) (lg ++ lg'))
      end.
Proof.
  induction idxs as [|idx r IH]; intros b E k lg Hc Hb Hall.
  - exists E. simpl. by rewrite run_ret, set_col_same, app_nil_r.
  - apply Forall_cons in Hall as [Hidx Hall]. simpl.
    rewrite bind_assoc, (run_fuzzy_row _ b) by done.
    destruct (cleaned !! idx) as [city|]; [|exists E; by rewrite app_nil_r].
    destruct (fuzzy_choice mapping (unique sc) city) as [[[[name bm] region]|]|e].
    + destruct (IH (<[idx := region]> b)
                  (set_col "bundesland" (<[idx := region]> b) E) k
                  (lg ++ [Debug_fuzzy_matched name bm region])) as [E' HE'].
      * by rewrite lookup_set_col_ne.
      * by rewrite lookup_set_col_eq.
      * by rewrite length_insert.
      * exists E'. rewrite HE'.
        destruct (fuzzy_pass mapping (unique sc) cleaned r (<[idx := region]> b))
          as [[b'|e] lg']; by rewrite <- ?app_assoc, ?set_col_twice.
    + by apply IH.
    + exists E. by rewrite app_nil_r.
Qed.

End RunLoop.

Lemma masked_index_from_lt mask : ∀ i,
  Forall (λ j, j < i + length mask) (masked_index_from i mask).
Proof.
  induction mask as [|b r IH]; intros i; simpl; [constructor|].
  specialize (IH (S i)).
  assert (Hr : Forall (λ j, j < i + S (length r)) (masked_index_from (S i) r)).
  { eapply Forall_impl; [exact IH|]. simpl. intros; lia. }
  destruct b; [constructor; [lia|done]|done].
Qed.

Lemma masked_index_lt (b : Series) :
  Forall (λ j, j < length b) (masked_index (isna b)).
Proof.
  unfold masked_index, isna.
  eapply Forall_impl; [apply masked_index_from_lt|].
  simpl. intros j. by rewrite length_fmap.
Qed.

(** ** Running the method *)

Section RunPhases.
Context {A : Type} (h : list DataFrame).

Lemma run_fuzzy_fallback (E C : DataFrame) cc mapping cleaned sc b
    (k : unit → M A) lg :
  cc ≠ "bundesland" →
  lookup_col "Stadt_clean" C = Some sc →
  lookup_col cc E = Some cleaned →
  lookup_col "bundesland" E = Some b →
  ∃ E',
    bind (fuzzy_fallback (length h + 0) (length h + 1) cc mapping) k
      (State (h ++ [E; C]) lg)
    = match fuzzy_phase mapping (unique sc) cleaned b with
      | (Ret b', lg') =>
          k tt (State (h ++ [set_col "bundesland" b' E; C]) (lg ++ lg'))
      | (Raise e, lg') => Some (Raise e, State (h ++ [E'; C]) (lg ++ lg'))
      end.
Proof.
  intros Hcc Hsc Hcl Hb. unfold fuzzy_fallback, fuzzy_phase, mbind, M_bind.
  rewrite bind_assoc, (run_getitem 0 E _ b) by done.
  case_decide.
  - rewrite bind_assoc, run_logger.
    destruct (run_fuzzy_loop h C cc mapping cleaned sc Hcc Hsc
                (masked_index (isna b)) b E k
                (lg ++ [Info_fuzzy_attempt (mask_sum (isna b))]) Hcl Hb
                (masked_index_lt b)) as [E' HE'].
    exists E'. rewrite HE'.
    destruct (fuzzy_pass mapping (unique sc) cleaned (masked_index (isna b)) b)
      as [[b'|e] lg']; by rewrite <- app_assoc.
  - exists E. by rewrite run_ret, set_col_same, app_nil_r.
Qed.

Lemma run_finish (E C : DataFrame) col cc cleaned b cities lg :
  cc ≠ "bundesland" → col ≠ cc →
  lookup_col cc E = Some cleaned →
  lookup_col "bundesland" E = Some b →
  lookup_col col E = Some cities →
  finish (length h + 0) col cc (State (h ++ [E; C]) lg)
  = Some (Ret (length h + 2),
          State (h ++ [E; C; remove_col cc E])
            (lg ++ report (nrows (remove_col cc E)) b cities)).
Proof.
  intros Hcc Hcol Hcl Hb Hci. unfold finish, report, mbind, M_bind.
  rewrite (run_drop_columns 0 E _ cleaned) by done. simpl length; simpl app.
  rewrite (run_len 2 (remove_col cc E)) by done.
  rewrite (run_getitem 2 (remove_col cc E) _ b)
    by (done || by rewrite lookup_remove_col_ne).
  rewrite ?bind_assoc, run_logger.
  case_decide.
  - rewrite ?bind_assoc, (run_getitem 2 (remove_col cc E) _ b)
      by (done || by rewrite lookup_remove_col_ne).
    rewrite ?bind_assoc, (run_getitem 2 (remove_col cc E) _ cities)
      by (done || by rewrite lookup_remove_col_ne).
    rewrite run_logger. unfold ret. by rewrite <- app_assoc.
  - rewrite run_ret. done.
Qed.

End RunPhases.

Section MergeRuns.
Context `{Unicode}.

Lemma merge_body_runs h lg df cdf col d c :
  h !! df = Some d → h !! cdf = Some c →
  ∃ garbage,
    merge_body df cdf col (State h lg)
    = match merge_pure d c col with
      | (Unchanged, lg') => Some (Ret df, State h (lg ++ lg'))
      | (Enriched d', lg') =>
          Some (Ret (length h + length garbage),
                State (h ++ garbage ++ [d']) (lg ++ lg'))
      | (Failed e, lg') => Some (Raise e, State (h ++ garbage) (lg ++ lg'))
      end.
Proof.
  intros Hd Hc. unfold merge_body, merge_pure, mbind, M_bind.
  replace (State h lg) with (State (h ++ []) lg) by (by rewrite app_nil_r).
  rewrite (run_deref_old _ d), (run_deref_old _ c) by done.
  destruct (empty d || empty c).
  { exists []. by rewrite app_nil_r. }
  cbv zeta. rewrite (run_copy_old _ d) by done. simpl length; simpl app.
  destruct (lookup_col col d) as [raw|] eqn:Hraw.
  2: { exists [d]. by rewrite (run_getitem_missing 0 d), app_nil_r. }
  rewrite (run_getitem 0 d _ raw), (run_setitem 0 d) by done.
  simpl (<[_ := _]> _).
  set (E1 := set_col (col +:+ "_clean") (clean raw) d).
  rewrite (run_copy_old _ c) by done. simpl length; simpl app.
  destruct (lookup_col "Stadt" c) as [stadt|] eqn:Hstadt.
  2: { exists [E1; c]. by rewrite (run_getitem_missing 1 c), app_nil_r. }
  rewrite (run_getitem 1 c _ stadt), (run_setitem 1 c) by done.
  simpl (<[_ := _]> _).
  set (C1 := set_col "Stadt_clean" (clean stadt) c).
  rewrite (run_getitem 1 C1 _ (clean stadt)) by (done || apply lookup_set_col_eq).
  assert (HBl : lookup_col "Bundesland" C1 = lookup_col "Bundesland" c)
    by by apply lookup_set_col_ne.
  destruct (lookup_col "Bundesland" c) as [values|] eqn:Hvalues.
  2: { exists [E1; C1]. by rewrite (run_getitem_missing 1 C1), app_nil_r. }
  rewrite (run_getitem 1 C1 _ values) by done.
  rewrite (run_getitem 0 E1 _ (clean raw)) by (done || apply lookup_set_col_eq).
  rewrite (run_setitem 0 E1) by done. simpl (<[_ := _]> _).
  set (mapping := dict_zip (clean stadt) values).
  set (exact := series_map mapping (clean raw)).
  set (E2 := set_col "bundesland" exact E1).
  pose proof (clean_column_not_bundesland col) as Hcc.
  pose proof (clean_column_fresh col) as Hcol.
  assert (HE2c : lookup_col (col +:+ "_clean") E2 = Some (clean raw)).
  { unfold E2. rewrite lookup_set_col_ne by done. apply lookup_set_col_eq. }
  destruct (run_fuzzy_fallback h E2 C1 (col +:+ "_clean") mapping (clean raw)
              (clean stadt) exact
              (λ _, finish (length h + 0) col (col +:+ "_clean")) lg
              Hcc (lookup_set_col_eq _ _ _) HE2c (lookup_set_col_eq _ _ _))
    as [E' HE'].
  rewrite HE'. clear HE'.
  destruct (fuzzy_phase mapping (unique (clean stadt)) (clean raw) exact)
    as [[b'|e] lg1].
  2: { exists [E'; C1]. done. }
  unfold E2. rewrite set_col_twice.
  set (E3 := set_col "bundesland" b' E1).
  rewrite (run_finish h E3 C1 col (col +:+ "_clean") (clean raw) b'
             (if decide (col = "bundesland") then b' else raw)); try done.
  - fold (enriched_frame d col (clean raw) b'). rewrite <- app_assoc.
    by exists [E3; C1].
  - unfold E3. rewrite lookup_set_col_ne by done. apply lookup_set_col_eq.
  - apply lookup_set_col_eq.
  - unfold E3, E1. case_decide as Hb.
    + rewrite Hb. apply lookup_set_col_eq.
    + by rewrite !lookup_set_col_ne.
Qed.

(** The method on any store in which both arguments are live: it returns,
    it leaves every object of the caller as it was, and its result and its
    log lines are those of [merge_pure]. *)
Theorem merge_runs s df cdf col d c :
  heap s !! df = Some d → heap s !! cdf = Some c →
  ∃ l garbage,
    merge_with_bundesland df cdf col s
    = Some (Ret l,
            State (heap s ++ garbage)
              (log s ++ (merge_pure d c col).2
                     ++ handler_log (merge_pure d c col).1))
    ∧ match (merge_pure d c col).1 with
      | Unchanged => l = df ∧ garbage = []
      | Enriched d' =>
          (length (heap s) ≤ l)%nat ∧ (heap s ++ garbage) !! l = Some d'
      | Failed e => l = df
      end.
Proof.
  intros Hd Hc. destruct s as [h lg]; simpl in *.
  destruct (merge_body_runs h lg df cdf col d c Hd Hc) as [g Hg].
  unfold merge_with_bundesland, try_except. rewrite Hg.
  destruct (merge_pure d c col) as [[|d'|e] lg']; simpl.
  - exists df, []. by rewrite !app_nil_r.
  - exists (length h + length g), (g ++ [d']). rewrite !app_nil_r.
    split_and!; [done|lia|].
    by rewrite app_assoc, <- length_app, list_lookup_middle.
  - exists df, g. unfold mbind, M_bind, bind, logger, ret; simpl.
    by rewrite <- app_assoc.
Qed.

End MergeRuns.

(** ** The similarity measure *)

Lemma size_char_set (s : pystr) : size (char_set s) = length (distinct_chars s).
Proof.
  unfold char_set, distinct_chars.
  rewrite <- (size_list_to_set (C := gset char) (remove_dups s))
    by apply NoDup_remove_dups.
  f_equal. apply set_eq. intros x.
  by rewrite !elem_of_list_to_set, elem_of_remove_dups.
Qed.

Lemma size_char_set_inter (a b : pystr) :
  size (char_set a ∩ char_set b) = length (shared_chars a b).
Proof.
  unfold char_set, shared_chars, distinct_chars.
  rewrite <- (size_list_to_set (C := gset char)
                (filter (λ ch, ch ∈ b) (remove_dups a)))
    by apply NoDup_filter, NoDup_remove_dups.
  f_equal. apply set_eq. intros x.
  rewrite elem_of_intersection, !elem_of_list_to_set.
  rewrite list_elem_of_filter, elem_of_remove_dups. tauto.
Qed.

Lemma distinct_chars_nil (s : pystr) : length (distinct_chars s) = 0 ↔ s = [].
Proof.
  split; [|by intros ->].
  intros Hlen. apply length_zero_iff_nil in Hlen.
  destruct s as [|ch r]; [done|].
  assert (Hin : ch ∈ distinct_chars (ch :: r))
    by (apply elem_of_remove_dups; left).
  rewrite Hlen in Hin. by apply not_elem_of_nil in Hin.
Qed.

Lemma score_spec (a b : pystr) :
  score a b
  = if decide (a = [] ∧ b = []) then Raise ZeroDivisionError
    else Ret (spec_score a b).
Proof.
  unfold score, spec_score.
  rewrite size_char_set_inter, !size_char_set.
  destruct (Nat.eqb_spec
              (Nat.max (length (distinct_chars a)) (length (distinct_chars b))) 0)
    as [Hz|Hnz].
  - rewrite decide_True; [done|].
    split; apply distinct_chars_nil; lia.
  - rewrite decide_False; [done|].
    intros [-> ->]. by apply Hnz.
Qed.

(** ** The scan over the candidates *)

Lemma Qgtb_true (x y : Q) : Qgtb x y = true ↔ (y < x)%Q.
Proof.
  unfold Qgtb. rewrite negb_true_iff, <- not_true_iff_false, Qle_bool_iff.
  split; [apply Qnot_le_lt | apply Qlt_not_le].
Qed.

Lemma scan_step_cases name best (a : cell) best' :
  scan_step name best a = Ret best' →
  (best' = best ∧
   ∀ x q, a = Some x → score name x = Ret q → (1 # 2 < q)%Q → (q <= best.2)%Q)
  ∨ (∃ x q, a = Some x ∧ score name x = Ret q ∧ best' = (Some x, q)
            ∧ (best.2 < q)%Q ∧ (1 # 2 < q)%Q).
Proof.
  unfold scan_step. destruct a as [x|]; [|intros [= <-]; left; by split].
  unfold mbind, result_bind. destruct (score name x) as [q|e] eqn:Hq; [|done].
  destruct (Qgtb q best.2) eqn:Hbest; simpl.
  - destruct (Qgtb q (1 # 2)) eqn:Hhalf; intros [= <-].
    + right. exists x, q. split_and!; try done; by apply Qgtb_true.
    + left. split; [done|]. intros x' q' [= <-] Hq' Hlt.
      rewrite Hq in Hq'. injection Hq' as <-.
      apply Qgtb_true in Hlt. congruence.
  - intros [= <-]. left. split; [done|]. intros x' q' [= <-] Hq' _.
    rewrite Hq in Hq'. injection Hq' as <-.
    apply Qnot_lt_le. rewrite <- Qgtb_true. congruence.
Qed.

(** The invariant of the loop of lines 230-236: the best score never
    decreases; the best match is the initial one or a candidate that scored
    above 0.5 and above the initial score; every candidate that scored
    above 0.5 scored at most the final best score, and one that ties with it
    comes no earlier than the best match. *)
Lemma scan_from_inv name (cands : Series) : ∀ best r,
  scan_from name cands best = Ret r →
  (best.2 <= r.2)%Q
  ∧ (r = best
     ∨ ∃ m, r.1 = Some m ∧ Some m ∈ cands ∧ score name m = Ret r.2
            ∧ (1 # 2 < r.2)%Q ∧ (best.2 < r.2)%Q)
  ∧ (∀ p a q, cands !! p = Some (Some a) → score name a = Ret q →
       (1 # 2 < q)%Q →
       (q <= r.2)%Q
       ∧ ((q == r.2)%Q → r = best ∨ ∃ p0, (p0 ≤ p)%nat ∧ cands !! p0 = Some r.1)).
Proof.
  induction cands as [|a0 rest IH]; intros best r; simpl.
  { intros [= <-]. split_and!; [lra|by left|]. by intros p a q. }
  unfold mbind, result_bind at 1.
  destruct (scan_step name best a0) as [best1|e] eqn:Hstep; [|done].
  intros Hscan. destruct (IH _ _ Hscan) as (Hmono & Horigin & Hmax).
  apply scan_step_cases in Hstep as [[-> Hkeep]|(x & sc & -> & Hsc & -> & Hgt & Hhalf)].
  - split_and!; [done| |].
    + destruct Horigin as [->|(m & ? & ? & ? & ? & ?)]; [by left|right].
      exists m. split_and!; try done. by right.
    + intros [|p] a q Hp Hq Hq2; simpl in Hp.
      * injection Hp as ->. specialize (Hkeep a q eq_refl Hq Hq2).
        split; [lra|]. intros Htie.
        destruct Horigin as [->|(m & ? & ? & ? & ? & ?)]; [by left|lra].
      * destruct (Hmax p a q Hp Hq Hq2) as [Hle Htie]. split; [done|].
        intros Heq. destruct (Htie Heq) as [->|(p0 & ? & ?)]; [by left|].
        right. exists (S p0). split; [lia|done].
  - simpl in *. split_and!; [lra| |].
    + right. destruct Horigin as [->|(m & ? & ? & ? & ? & ?)]; simpl.
      * exists x. split_and!; try done. by left.
      * exists m. split_and!; try done; [by right|lra].
    + intros [|p] a q Hp Hq Hq2; simpl in Hp.
      * injection Hp as ->. rewrite Hsc in Hq. injection Hq as ->.
        split; [done|]. intros Htie. right. exists 0. split; [lia|].
        destruct Horigin as [->|(m & ? & ? & ? & ? & ?)]; [done|lra].
      * destruct (Hmax p a q Hp Hq Hq2) as [Hle Htie]. split; [done|].
        intros Heq. right.
        destruct (Htie Heq) as [->|(p0 & ? & ?)].
        -- exists 0. split; [lia|done].
        -- exists (S p0). split; [lia|done].
Qed.

(** A match of the scan: a candidate whose score is above 0.5, is the
    largest score of any candidate, and the earliest candidate with that
    score. *)
Lemma scan_candidates_match name (cands : Series) m q :
  scan_candidates name cands = Ret (Some m, q) →
  Some m ∈ cands ∧ score name m = Ret q ∧ (1 # 2 < q)%Q
  ∧ ∀ p a q', cands !! p = Some (Some a) → score name a = Ret q' →
      (q' <= q)%Q
      ∧ ((q' == q)%Q → ∃ p0, (p0 ≤ p)%nat ∧ cands !! p0 = Some (Some m)).
Proof.
  intros Hscan. apply scan_from_inv in Hscan as (_ & Horigin & Hmax).
  simpl in *. destruct Horigin as [|(m' & [= <-] & Hin & Hsc & Hhalf & _)]; [done|].
  split_and!; try done. intros p a q' Hp Hq.
  destruct (Qlt_le_dec (1 # 2) q') as [Hlt|Hle].
  - destruct (Hmax p a q' Hp Hq Hlt) as [Hle Htie]. split; [done|].
    intros Heq. by destruct (Htie Heq).
  - split; [lra|]. intros Heq. lra.
Qed.

(** No match: no candidate scored above 0.5. *)
Lemma scan_candidates_no_match name (cands : Series) q :
  scan_candidates name cands = Ret (None, q) →
  ∀ a q', Some a ∈ cands → score name a = Ret q' → (q' <= 1 # 2)%Q.
Proof.
  intros Hscan a q' Hin Hq. apply scan_from_inv in Hscan as (_ & Horigin & Hmax).
  simpl in *. destruct Horigin as [[= ->]|(m' & [=] & _)].
  apply list_elem_of_lookup in Hin as [p Hp].
  destruct (Qlt_le_dec (1 # 2) q') as [Hlt|Hle]; [|done].
  destruct (Hmax p a q' Hp Hq Hlt). lra.
Qed.

(** ** The mapping [dict(zip(keys, values))] *)

Section DictZip.
Implicit Types (m : gmap cell cell) (l : list (cell * cell)) (k v : cell).

Let ins := λ m (kv : cell * cell), <[kv.1 := kv.2]> m.

Lemma foldl_insert_absent k : ∀ l m,
  (∀ p, p ∈ l → p.1 ≠ k) → foldl ins m l !! k = m !! k.
Proof.
  induction l as [|p l IH]; intros m Hl; simpl; [done|].
  rewrite IH by (intros; apply Hl; by right).
  unfold ins. apply lookup_insert_ne. apply Hl. by left.
Qed.

Lemma foldl_insert_origin k v : ∀ l m,
  foldl ins m l !! k = Some v → m !! k = Some v ∨ (k, v) ∈ l.
Proof.
  induction l as [|[k' v'] l IH]; intros m; simpl; [by left|].
  intros Hl. apply IH in Hl as [Hl|Hl]; [|right; by right].
  unfold ins in Hl. simpl in Hl.
  destruct (decide (k' = k)) as [->|Hne].
  - rewrite lookup_insert_eq in Hl. injection Hl as ->. right; by left.
  - rewrite lookup_insert_ne in Hl by done. by left.
Qed.

(** Last write wins: the mapping holds the value of the last pair with
    the key. *)
Lemma dict_zip_last (keys values : Series) j k v :
  keys !! j = Some k → values !! j = Some v →
  (∀ j', j < j' → j' < length values → keys !! j' ≠ Some k) →
  dict_zip keys values !! k = Some v.
Proof.
  intros Hk Hv Hlast. unfold dict_zip.
  assert (Hj : zip keys values !! j = Some (k, v)).
  { apply lookup_zip_with_Some. by exists k, v. }
  rewrite <- (take_drop_middle _ _ _ Hj), foldl_app. simpl.
  fold ins. rewrite foldl_insert_absent.
  - unfold ins. simpl. apply lookup_insert_eq.
  - intros [k' v'] Hin Heq. simpl in Heq. subst k'.
    apply list_elem_of_lookup in Hin as [p Hp].
    rewrite lookup_drop in Hp.
    apply lookup_zip_with_Some in Hp as (k2 & v2 & [= <- <-] & Hk' & Hv').
    apply (Hlast (S j + p)); [lia| by eapply lookup_lt_Some |done].
Qed.

(** The mapping only holds pairs of the table. *)
Lemma dict_zip_origin (keys values : Series) k v :
  dict_zip keys values !! k = Some v →
  ∃ j, keys !! j = Some k ∧ values !! j = Some v.
Proof.
  unfold dict_zip. intros Hl. fold ins in Hl.
  apply foldl_insert_origin in Hl as [Hl|Hl]; [by rewrite lookup_empty in Hl|].
  apply list_elem_of_lookup in Hl as [j Hj]. exists j.
  apply lookup_zip_with_Some in Hj as (k' & v' & [= <- <-] & ? & ?). done.
Qed.


Lemma foldl_insert_is_Some k : ∀ l m,
  is_Some (m !! k) → is_Some (foldl ins m l !! k).
Proof.
  induction l as [|[k' v'] l IH]; intros m Hm; simpl; [done|].
  apply IH. unfold ins; simpl. destruct (decide (k' = k)) as [->|?].
  - by rewrite lookup_insert_eq.
  - by rewrite lookup_insert_ne.
Qed.

Lemma foldl_insert_elem k v : ∀ l m,
  (k, v) ∈ l → is_Some (foldl ins m l !! k).
Proof.
  induction l as [|p l IH]; intros m Hin; simpl.
  { by apply not_elem_of_nil in Hin. }
  apply elem_of_cons in Hin as [<-|Hin]; [|by apply IH].
  apply foldl_insert_is_Some. unfold ins; simpl. by rewrite lookup_insert_eq.
Qed.

(** Every key that has a value in the table is a key of the mapping. *)
Lemma dict_zip_is_Some (keys values : Series) j k :
  keys !! j = Some k → j < length values →
  is_Some (dict_zip keys values !! k).
Proof.
  intros Hk Hj. apply lookup_lt_is_Some in Hj as [v Hv].
  unfold dict_zip. fold ins. apply (foldl_insert_elem k v).
  apply list_elem_of_lookup. exists j. apply lookup_zip_with_Some. by exists k, v.
Qed.

End DictZip.

(** ** Masks and [unique] *)

Lemma elem_of_masked_index_from mask : ∀ i j,
  j ∈ masked_index_from i mask ↔ ∃ p, j = i + p ∧ mask !! p = Some true.
Proof.
  induction mask as [|b r IH]; intros i j; simpl.
  { split; [by intros ?%not_elem_of_nil|by intros (p & _ & ?)]. }
  assert (Hr : j ∈ masked_index_from (S i) r
               ↔ ∃ p, j = i + S p ∧ r !! p = Some true).
  { rewrite IH. split; intros (p & -> & Hp); exists p; split; (lia || done). }
  destruct b.
  - rewrite elem_of_cons, Hr. split.
    + intros [->|(p & -> & Hp)]; [exists 0|exists (S p)]; split; (lia || done).
    + intros ([|p] & -> & Hp); [left; lia|right; by exists p].
  - rewrite Hr. split.
    + intros (p & -> & Hp). by exists (S p).
    + intros ([|p] & -> & Hp); [done|by exists p].
Qed.

Lemma NoDup_masked_index_from mask : ∀ i, NoDup (masked_index_from i mask).
Proof.
  induction mask as [|b r IH]; intros i; simpl; [constructor|].
  destruct b; [|done]. constructor; [|done].
  rewrite elem_of_masked_index_from. intros (p & ? & _). lia.
Qed.

Lemma elem_of_masked_index (b : Series) i :
  i ∈ masked_index (isna b) ↔ b !! i = Some None.
Proof.
  unfold masked_index, isna. rewrite elem_of_masked_index_from. split.
  - intros (p & -> & Hp). simpl. rewrite list_lookup_fmap in Hp.
    destruct (b !! p) as [x|]; [|done]. simpl in Hp.
    injection Hp as Hp. apply bool_decide_eq_true in Hp. by subst.
  - intros Hi. exists i. split; [done|].
    by rewrite list_lookup_fmap, Hi.
Qed.

Lemma mask_sum_pos (b : Series) i :
  b !! i = Some None → 0 < mask_sum (isna b).
Proof.
  intros Hi. unfold mask_sum, isna.
  assert (Hin : true ∈ filter (λ x, x = true)
                  ((λ c : cell, bool_decide (c = None)) <$> b)).
  { apply list_elem_of_filter. split; [done|].
    apply list_elem_of_fmap. exists None. split; [done|].
    by eapply list_elem_of_lookup_2. }
  destruct (filter _ _); [by apply not_elem_of_nil in Hin|simpl; lia].
Qed.

Lemma mask_sum_zero (b : Series) i :
  ¬ 0 < mask_sum (isna b) → b !! i ≠ Some None.
Proof. intros Hz Hi. apply Hz. by eapply mask_sum_pos. Qed.

Lemma elem_of_unique_from (s : Series) : ∀ seen x,
  x ∈ unique_from seen s ↔ x ∈ s ∧ x ∉ seen.
Proof.
  induction s as [|c r IH]; intros seen x; simpl.
  { split; [by intros ?%not_elem_of_nil|by intros [?%not_elem_of_nil _]]. }
  destruct (decide (c ∈ seen)) as [Hc|Hc].
  - rewrite IH, elem_of_cons. split; [intros [? ?]; by auto|].
    intros [[->|?] ?]; done.
  - rewrite !elem_of_cons, IH, not_elem_of_cons.
    split.
    + intros [->|(? & ? & ?)]; auto.
    + intros [[->|?] ?]; [by left|].
      destruct (decide (x = c)) as [->|?]; [by left|by right].
Qed.

Lemma elem_of_unique (s : Series) x : x ∈ unique s ↔ x ∈ s.
Proof.
  unfold unique. rewrite elem_of_unique_from.
  split; [by intros [? _]|]. intros ?; split; [done|apply not_elem_of_nil].
Qed.

(** [unique] keeps the order of first appearance: a cell at row [j] of the
    Series is in the result, and whatever precedes it there appears in the
    Series at row [j] or earlier. *)
Lemma unique_from_order (s : Series) : ∀ seen j x,
  s !! j = Some x → x ∉ seen →
  ∃ p, unique_from seen s !! p = Some x
       ∧ ∀ p0 y, (p0 ≤ p)%nat → unique_from seen s !! p0 = Some y →
           ∃ j0, (j0 ≤ j)%nat ∧ s !! j0 = Some y.
Proof.
  induction s as [|c r IH]; intros seen j x Hj Hx; [done|]. simpl.
  destruct (decide (c ∈ seen)) as [Hc|Hc].
  - destruct j as [|j]; simpl in Hj; [by injection Hj as ->|].
    destruct (IH seen j x Hj Hx) as (p & Hp & Hord).
    exists p. split; [done|]. intros p0 y Hle Hy.
    destruct (Hord p0 y Hle Hy) as (j0 & ? & ?). exists (S j0). split; [lia|done].
  - destruct j as [|j]; simpl in Hj.
    + injection Hj as ->. exists 0. split; [done|].
      intros p0 y Hle Hy. exists 0. replace p0 with 0 in Hy by lia. done.
    + destruct (decide (x = c)) as [->|Hne].
      * exists 0. split; [done|]. intros p0 y Hle Hy.
        exists 0. replace p0 with 0 in Hy by lia. split; [lia|done].
      * destruct (IH (c :: seen) j x Hj) as (p & Hp & Hord).
        { by apply not_elem_of_cons. }
        exists (S p). split; [done|]. intros [|p0] y Hle Hy; simpl in Hy.
        -- exists 0. split; [lia|done].
        -- destruct (Hord p0 y) as (j0 & ? & ?); [lia|done|].
           exists (S j0). split; [lia|done].
Qed.

(** ** The fuzzy pass *)

Lemma score_blank name q : score name [] = Ret q → ¬ (1 # 2 < q)%Q.
Proof.
  rewrite score_spec. case_decide; [done|]. intros [= <-].
  unfold spec_score, shared_chars.
  replace (filter (λ ch, ch ∈ []) (distinct_chars name)) with (@nil char).
  - unfold Qlt. simpl. lia.
  - symmetry. induction (distinct_chars name) as [|ch r IH]; [done|].
    rewrite filter_cons_False; [done|]. apply not_elem_of_nil.
Qed.

Lemma scan_from_total name (cands : Series) :
  name ≠ [] ∨ Some [] ∉ cands →
  ∀ best, ∃ r, scan_from name cands best = Ret r.
Proof.
  induction cands as [|a rest IH]; intros Hok best; simpl; [by eexists|].
  assert (Hrest : name ≠ [] ∨ Some [] ∉ rest).
  { destruct Hok as [?|Hb]; [by left|right]. intros ?. apply Hb. by right. }
  unfold mbind, result_bind at 1. unfold scan_step.
  destruct a as [x|]; [|by apply IH].
  rewrite score_spec. rewrite decide_False.
  - simpl. destruct (_ && _); by apply IH.
  - intros [-> ->]. destruct Hok as [?|Hb]; [done|]. apply Hb. by left.
Qed.

Lemma fuzzy_choice_Some mapping (cands : Series) city name m region :
  fuzzy_choice mapping cands city = Ret (Some (name, m, region)) →
  city = Some name ∧ mapping !! Some m = Some region
  ∧ ∃ q, scan_candidates name cands = Ret (Some m, q).
Proof.
  unfold fuzzy_choice. destruct city as [n|]; [|done].
  unfold mbind, result_bind.
  destruct (scan_candidates n cands) as [[[[|ch rest]|] q]|e] eqn:Hscan;
    simpl; try done.
  unfold dict_getitem.
  destruct (mapping !! Some (ch :: rest)) as [v|] eqn:Hm; [|done].
  intros [= <- <- <-]. split_and!; try done. by exists q.
Qed.

Lemma fuzzy_choice_None mapping (cands : Series) name :
  fuzzy_choice mapping cands (Some name) = Ret None →
  ∃ q, scan_candidates name cands = Ret (None, q).
Proof.
  unfold fuzzy_choice, mbind, result_bind.
  destruct (scan_candidates name cands) as [[[[|ch rest]|] q]|e] eqn:Hscan;
    simpl; try done.
  - apply scan_candidates_match in Hscan as (_ & Hsc & Hhalf & _).
    by apply score_blank in Hsc.
  - unfold dict_getitem. by case_match.
  - by exists q.
Qed.

Lemma fuzzy_choice_total mapping (cands : Series) city :
  (∀ name, city = Some name → name ≠ [] ∨ Some [] ∉ cands) →
  (∀ m, Some m ∈ cands → is_Some (mapping !! Some m)) →
  ∃ r, fuzzy_choice mapping cands city = Ret r.
Proof.
  intros Hdiv Hdom. unfold fuzzy_choice. destruct city as [name|]; [|by eexists].
  destruct (scan_from_total name cands (Hdiv name eq_refl) (None, 0%Q))
    as [[bm q] Hscan].
  unfold scan_candidates at 1. rewrite Hscan. simpl.
  destruct bm as [[|ch rest]|]; try by eexists.
  apply scan_candidates_match in Hscan as (Hin & _).
  destruct (Hdom _ Hin) as [v Hv]. unfold dict_getitem. rewrite Hv.
  simpl. by eexists.
Qed.

Section FuzzyPass.
Context (mapping : gmap cell cell) (cands cleaned : Series).

Lemma fuzzy_pass_lookup : ∀ idxs b b' lg,
  fuzzy_pass mapping cands cleaned idxs b = (Ret b', lg) →
  NoDup idxs → Forall (λ i, i < length b) idxs →
  length b' = length b
  ∧ ∀ i,
      (i ∉ idxs → b' !! i = b !! i)
      ∧ (i ∈ idxs →
         ∃ city, cleaned !! i = Some city
           ∧ ((fuzzy_choice mapping cands city = Ret None ∧ b' !! i = b !! i)
              ∨ ∃ name m region,
                  fuzzy_choice mapping cands city = Ret (Some (name, m, region))
                  ∧ b' !! i = Some region)).
Proof.
  induction idxs as [|idx r IH]; intros b b' lg; simpl.
  { intros [= <- <-] _ _. split; [done|]. intros i. split; [done|].
    by intros ?%not_elem_of_nil. }
  intros Hpass Hnd Hall.
  apply NoDup_cons in Hnd as [Hidx Hnd].
  apply Forall_cons in Hall as [Hlt Hall].
  destruct (cleaned !! idx) as [city|] eqn:Hcity; [|done].
  destruct (fuzzy_choice mapping cands city)
    as [[[[name m] region]|]|e] eqn:Hchoice; [| |done].
  - destruct (fuzzy_pass mapping cands cleaned r (<[idx := region]> b))
      as [res lg0] eqn:Hrest.
    injection Hpass as -> <-.
    destruct (IH _ _ _ Hrest Hnd) as [Hlen Hrows];
      [by rewrite length_insert|].
    rewrite length_insert in Hlen. split; [done|]. intros i.
    destruct (Hrows i) as [Hout Hin]. split.
    + intros [Hne Hni]%not_elem_of_cons.
      by rewrite Hout, list_lookup_insert_ne.
    + intros [->|Hi]%elem_of_cons.
      * exists city. split; [done|]. right. exists name, m, region.
        split; [done|]. rewrite Hout by done.
        by apply list_lookup_insert_eq.
      * destruct (Hin Hi) as (city' & Hc' & [[Hn Hb]|Hs]);
          exists city'; (split; [done|]); [left|by right].
        split; [done|]. rewrite Hb. apply list_lookup_insert_ne.
        intros ->. done.
  - destruct (IH _ _ _ Hpass Hnd Hall) as [Hlen Hrows].
    split; [done|]. intros i. destruct (Hrows i) as [Hout Hin]. split.
    + intros [Hne Hni]%not_elem_of_cons. by apply Hout.
    + intros [->|Hi]%elem_of_cons; [|by apply Hin].
      exists city. split; [done|]. left. split; [done|]. by apply Hout.
Qed.

Lemma fuzzy_pass_total : ∀ idxs b,
  (∀ i, i ∈ idxs →
        ∃ city r, cleaned !! i = Some city
                  ∧ fuzzy_choice mapping cands city = Ret r) →
  ∃ b' lg, fuzzy_pass mapping cands cleaned idxs b = (Ret b', lg).
Proof.
  induction idxs as [|idx r IH]; intros b Hall; simpl; [by eexists _, _|].
  destruct (Hall idx) as (city & res & -> & ->); [by left|].
  assert (Hr : ∀ i, i ∈ r → ∃ city r0, cleaned !! i = Some city
                        ∧ fuzzy_choice mapping cands city = Ret r0).
  { intros i Hi. apply Hall. by right. }
  destruct res as [[[name m] region]|]; [|by apply IH].
  destruct (IH (<[idx := region]> b) Hr) as (b' & lg & ->). by eexists _, _.
Qed.

(** The column after the fuzzy phase, row by row: a row the exact pass
    resolved keeps its region; any other row gets what [fuzzy_choice]
    writes for its cleaned city name, or stays without a region. *)
Lemma fuzzy_phase_lookup exact b' lg :
  fuzzy_phase mapping cands cleaned exact = (Ret b', lg) →
  length b' = length exact
  ∧ ∀ i,
      (exact !! i ≠ Some None → b' !! i = exact !! i)
      ∧ (exact !! i = Some None →
         ∃ city, cleaned !! i = Some city
           ∧ ((fuzzy_choice mapping cands city = Ret None ∧ b' !! i = Some None)
              ∨ ∃ name m region,
                  fuzzy_choice mapping cands city = Ret (Some (name, m, region))
                  ∧ b' !! i = Some region)).
Proof.
  unfold fuzzy_phase. case_decide as Hpos.
  - destruct (fuzzy_pass mapping cands cleaned (masked_index (isna exact)) exact)
      as [res lg0] eqn:Hpass.
    intros [= -> <-].
    destruct (fuzzy_pass_lookup _ _ _ _ Hpass) as [Hlen Hrows].
    { apply NoDup_masked_index_from. }
    { apply masked_index_lt. }
    split; [done|]. intros i. destruct (Hrows i) as [Hout Hin].
    rewrite elem_of_masked_index in Hout, Hin. split; [done|].
    intros Hi. destruct (Hin Hi) as (city & Hc & [[Hn Hb]|Hs]);
      exists city; (split; [done|]); [left|by right].
    by rewrite Hb.
  - intros [= <- <-]. split; [done|]. intros i. split; [done|].
    intros Hi. by apply (mask_sum_zero _ i) in Hpos.
Qed.

Lemma fuzzy_phase_total exact :
  (∀ i, exact !! i = Some None →
        ∃ city r, cleaned !! i = Some city
                  ∧ fuzzy_choice mapping cands city = Ret r) →
  ∃ b' lg, fuzzy_phase mapping cands cleaned exact = (Ret b', lg).
Proof.
  intros Hall. unfold fuzzy_phase. case_decide; [|by eexists _, _].
  destruct (fuzzy_pass_total (masked_index (isna exact)) exact) as (b' & lg & ->).
  - intros i Hi. apply Hall. by apply elem_of_masked_index.
  - by eexists _, _.
Qed.

End FuzzyPass.

(** ** Well-formed frames and the enriched frame *)

Lemma columns_lookup n name s (d : DataFrame) :
  Forall (λ p, length p.2 = n) d → lookup_col name d = Some s → length s = n.
Proof.
  induction d as [|[n0 c] r IH]; simpl; [done|].
  intros [Hc Hr]%Forall_cons. case_decide; [by intros [= <-]|by apply IH].
Qed.

Lemma columns_set_col n name s (d : DataFrame) :
  Forall (λ p, length p.2 = n) d → length s = n →
  Forall (λ p, length p.2 = n) (set_col name s d).
Proof.
  intros Hd Hs. induction d as [|[n0 c] r IH]; simpl.
  { by constructor. }
  apply Forall_cons in Hd as [Hc Hr].
  case_decide; constructor; auto.
Qed.

Lemma columns_nrows n (d : DataFrame) :
  Forall (λ p, length p.2 = n) d → d ≠ [] → nrows d = n.
Proof. destruct d as [|[n0 c] r]; [done|]. by intros [Hc _]%Forall_cons _. Qed.

Lemma well_formed_lookup name s (d : DataFrame) :
  well_formed d → lookup_col name d = Some s → length s = nrows d.
Proof. apply columns_lookup. Qed.

Lemma length_clean `{Unicode} (s : Series) : length (clean s) = length s.
Proof. unfold clean, str_lower_series, str_strip. by rewrite !length_fmap. Qed.

Lemma lookup_clean `{Unicode} (s : Series) i :
  clean s !! i = (λ c : cell, normalize <$> c) <$> s !! i.
Proof.
  unfold clean, str_lower_series, str_strip, normalize.
  rewrite !list_lookup_fmap. destruct (s !! i) as [[x|]|]; done.
Qed.

Lemma lookup_series_map mapping (s : Series) i :
  series_map mapping s !! i = (λ c : cell, default None (mapping !! c)) <$> s !! i.
Proof. unfold series_map. by rewrite list_lookup_fmap. Qed.

Section EnrichedFrame.
Context `{Unicode} (d : DataFrame) (col : string) (cleaned b' : Series).

Lemma enriched_bundesland :
  lookup_col "bundesland" (enriched_frame d col cleaned b') = Some b'.
Proof.
  unfold enriched_frame.
  rewrite lookup_remove_col_ne by (symmetry; apply clean_column_not_bundesland).
  apply lookup_set_col_eq.
Qed.

Lemma enriched_no_clean_column :
  lookup_col (col +:+ "_clean") (enriched_frame d col cleaned b') = None.
Proof. apply lookup_remove_col_eq. Qed.

Lemma enriched_other_columns name :
  name ≠ "bundesland" → name ≠ col +:+ "_clean" →
  lookup_col name (enriched_frame d col cleaned b') = lookup_col name d.
Proof.
  intros Hb Hc. unfold enriched_frame.
  by rewrite lookup_remove_col_ne, !lookup_set_col_ne.
Qed.

Lemma enriched_nrows :
  well_formed d → length cleaned = nrows d → length b' = nrows d →
  nrows (enriched_frame d col cleaned b') = nrows d.
Proof.
  intros Hwf Hc Hb. apply columns_nrows.
  - unfold enriched_frame, remove_col. apply Forall_forall.
    intros p [_ Hp]%list_elem_of_filter. revert p Hp. apply Forall_forall.
    by do 2 (apply columns_set_col; [|done]).
  - intros Hnil. pose proof enriched_bundesland as Hl. by rewrite Hnil in Hl.
Qed.

End EnrichedFrame.

(** ** When the merge completes *)

Section Completion.
Context `{Unicode}.

(** What an enriched outcome was computed from. *)
Lemma merge_pure_Enriched d c col d' lg :
  merge_pure d c col = (Enriched d', lg) →
  ∃ raw stadt values b' lg1,
    lookup_col col d = Some raw
    ∧ lookup_col "Stadt" c = Some stadt
    ∧ lookup_col "Bundesland" c = Some values
    ∧ fuzzy_phase (dict_zip (clean stadt) values) (unique (clean stadt))
        (clean raw) (series_map (dict_zip (clean stadt) values) (clean raw))
      = (Ret b', lg1)
    ∧ d' = enriched_frame d col (clean raw) b'
    ∧ lg = lg1 ++ report (nrows d') b'
                    (if decide (col = "bundesland") then b' else raw).
Proof.
  unfold merge_pure. destruct (empty d || empty c); [done|].
  destruct (lookup_col col d) as [raw|]; [|done].
  destruct (lookup_col "Stadt" c) as [stadt|]; [|done].
  destruct (lookup_col "Bundesland" c) as [values|]; [|done].
  destruct (fuzzy_phase _ _ _ _) as [[b'|e] lg1] eqn:Hphase; [|done].
  intros [= <- <-]. by exists raw, stadt, values, b', lg1.
Qed.

(** The merge completes on non-empty tables that have the three columns,
    unless a facility with a blank city meets a reference row with a blank
    name for which the mapping holds no region (the one case in which line
    233 divides by zero). *)
Lemma merge_pure_completes d c col raw stadt values :
  empty d = false → empty c = false → well_formed d →
  lookup_col col d = Some raw →
  lookup_col "Stadt" c = Some stadt →
  lookup_col "Bundesland" c = Some values →
  length stadt ≤ length values →
  (Some [] ∈ clean raw → Some [] ∈ clean stadt →
   ∃ g, dict_zip (clean stadt) values !! Some [] = Some (Some g)) →
  ∃ b' lg1,
    fuzzy_phase (dict_zip (clean stadt) values) (unique (clean stadt))
      (clean raw) (series_map (dict_zip (clean stadt) values) (clean raw))
    = (Ret b', lg1)
    ∧ merge_pure d c col
      = (Enriched (enriched_frame d col (clean raw) b'),
         lg1 ++ report (nrows d) b'
                  (if decide (col = "bundesland") then b' else raw)).
Proof.
  intros Hd Hc Hwf Hraw Hstadt Hvalues Hlen Hblank.
  set (mapping := dict_zip (clean stadt) values).
  set (exact := series_map mapping (clean raw)).
  destruct (fuzzy_phase_total mapping (unique (clean stadt)) (clean raw) exact)
    as (b' & lg1 & Hphase).
  { intros i Hi. unfold exact in Hi. rewrite lookup_series_map in Hi.
    destruct (clean raw !! i) as [city|] eqn:Hcity; [|done].
    simpl in Hi. injection Hi as Hi.
    destruct (fuzzy_choice_total mapping (unique (clean stadt)) city) as [r Hr].
    - intros name ->. destruct (decide (name = [])) as [->|?]; [|by left].
      right. intros Hin. apply (proj1 (elem_of_unique _ _)) in Hin.
      destruct Hblank as [g Hg]; [by eapply list_elem_of_lookup_2|done|].
      fold mapping in Hg. by rewrite Hg in Hi.
    - intros m Hm. apply (proj1 (elem_of_unique _ _)) in Hm.
      apply list_elem_of_lookup in Hm as [j Hj].
      apply (dict_zip_is_Some _ _ j); [done|].
      apply lookup_lt_Some in Hj. rewrite length_clean in Hj. lia.
    - by exists city, r. }
  assert (Hrows : nrows (enriched_frame d col (clean raw) b') = nrows d).
  { apply fuzzy_phase_lookup in Hphase as [Hb _].
    apply enriched_nrows; [done| |].
    - rewrite length_clean. by eapply well_formed_lookup.
    - rewrite Hb. unfold exact, series_map.
      rewrite length_fmap, length_clean. by eapply well_formed_lookup. }
  exists b', lg1. split; [done|].
  unfold merge_pure. rewrite Hd, Hc, Hraw, Hstadt, Hvalues. simpl.
  fold mapping exact. by rewrite Hphase, Hrows.
Qed.

End Completion.


(** * The properties of the specification *)

(** ** Exceptions never leave the method (C10, C1) *)

(** The two exceptions of the model do occur inside the [try]: the city
    column is missing; both character sets of line 233 are empty. *)
Example body_raises_key_error :
  merge_body 0 1 "town" (store_of parks cities)
  = Some (Raise (KeyError (Column "town")), State [parks; cities; parks] []).
Proof. reflexivity. Qed.

Example body_raises_zero_division :
  fst <$> merge_body 0 1 "city" (store_of blank_parks blank_city_no_region)
  = Some (Raise ZeroDivisionError).
Proof. reflexivity. Qed.

(** C10.  On every store in which the two arguments are live, the call
    returns a reference and never raises; the caller's objects are all as
    they were; and if the body of the [try] raised an exception, whatever it
    is, the call logs it and returns the reference it was given, to the
    unchanged input table. *)
Theorem merge_never_raises `{Unicode} s df cdf col d c :
  heap s !! df = Some d → heap s !! cdf = Some c →
  ∃ l s',
    merge_with_bundesland df cdf col s = Some (Ret l, s')
    ∧ (∀ l0 x, heap s !! l0 = Some x → heap s' !! l0 = Some x)
    ∧ (∀ e s1, merge_body df cdf col s = Some (Raise e, s1) →
         l = df ∧ heap s' !! l = Some d
         ∧ log s' = log s1 ++ [Error_merging e]).
Proof.
  intros Hd Hc.
  destruct (merge_runs s df cdf col d c Hd Hc) as (l & garbage & Hrun & _).
  eexists l, _. split; [exact Hrun|]. split.
  - intros l0 x Hl0. simpl. by apply lookup_app_l_Some.
  - intros e s1 Hbody. unfold merge_with_bundesland, try_except in Hrun.
    rewrite Hbody in Hrun. injection Hrun as <- Hheap Hlog.
    split_and!; [done| |].
    + simpl. by apply lookup_app_l_Some.
    + simpl. by rewrite <- Hlog.
Qed.

Lemma merge_never_raises_witness :
  ∃ l s',
    merge_with_bundesland 0 1 "city" (store_of blank_parks blank_city_no_region)
    = Some (Ret l, s')
    ∧ (∀ l0 x, [blank_parks; blank_city_no_region] !! l0 = Some x →
               heap s' !! l0 = Some x)
    ∧ (∀ e s1,
         merge_body 0 1 "city" (store_of blank_parks blank_city_no_region)
         = Some (Raise e, s1) →
         l = 0 ∧ heap s' !! l = Some blank_parks
         ∧ log s' = log s1 ++ [Error_merging e]).
Proof.
  apply (merge_never_raises (store_of blank_parks blank_city_no_region) 0 1
           "city" blank_parks blank_city_no_region); reflexivity.
Defined.

(** C1 as stated fails: with the city column missing, the call does not
    raise; it returns the reference it was given and logs the [KeyError]. *)
Lemma missing_city_field_not_surfaced :
  lookup_col "town" parks = None
  ∧ merge_with_bundesland 0 1 "town" (store_of parks cities)
    = Some (Ret 0, State [parks; cities; parks]
                     [Error_merging (KeyError (Column "town"))])
  ∧ ∀ e s', merge_with_bundesland 0 1 "town" (store_of parks cities)
            ≠ Some (Raise e, s').
Proof. split_and!; [reflexivity..|]. intros e s'. by vm_compute. Qed.

(** C1, amended.  When the city column is absent from the facility table,
    the call returns the reference it was given and the table behind it is
    unchanged: nothing partial is returned.  If both tables are non-empty,
    the body of the [try] raises the [KeyError] that names the column, and
    the call logs that error instead of raising it. *)
Theorem missing_city_field_returns_input `{Unicode} s df cdf col d c :
  heap s !! df = Some d → heap s !! cdf = Some c →
  lookup_col col d = None →
  ∃ s',
    merge_with_bundesland df cdf col s = Some (Ret df, s')
    ∧ heap s' !! df = Some d
    ∧ (empty d || empty c = false →
       (∃ s1, merge_body df cdf col s
              = Some (Raise (KeyError (Column col)), s1))
       ∧ log s' = log s ++ [Error_merging (KeyError (Column col))]).
Proof.
  intros Hd Hc Hcol. destruct s as [h lg]; simpl in *.
  destruct (merge_body_runs h lg df cdf col d c Hd Hc) as [garbage Hbody].
  unfold merge_with_bundesland, try_except. rewrite Hbody.
  unfold merge_pure. rewrite Hcol.
  destruct (empty d || empty c) eqn:Hempty; simpl.
  - eexists. split_and!; [done..|]. done.
  - eexists. split_and!; [done | by apply lookup_app_l_Some |].
    intros _. rewrite app_nil_r. split; [by eexists|done].
Qed.

Lemma missing_city_field_returns_input_witness :
  ∃ s',
    merge_with_bundesland 0 1 "town" (store_of parks cities) = Some (Ret 0, s')
    ∧ heap s' !! 0 = Some parks
    ∧ (empty parks || empty cities = false →
       (∃ s1, merge_body 0 1 "town" (store_of parks cities)
              = Some (Raise (KeyError (Column "town")), s1))
       ∧ log s' = [] ++ [Error_merging (KeyError (Column "town"))]).
Proof.
  apply (missing_city_field_returns_input (store_of parks cities) 0 1 "town"
           parks cities); reflexivity.
Defined.

(** ** Empty inputs (C5) *)

(** C5.  If the facility table or the city table has no rows, the call
    returns the reference it was given, the store (so the table behind that
    reference) is unchanged, no exception is raised, and the only line it
    logs is the warning: every reported count is zero. *)
Theorem empty_input_is_returned `{Unicode} s df cdf col d c :
  heap s !! df = Some d → heap s !! cdf = Some c →
  nrows d = 0 ∨ nrows c = 0 →
  merge_with_bundesland df cdf col s
  = Some (Ret df, State (heap s) (log s ++ [Warning_empty]))
  ∧ merge_body df cdf col s
    = Some (Ret df, State (heap s) (log s ++ [Warning_empty]))
  ∧ statistics_of [Warning_empty] = (0, 0, 0, []).
Proof.
  intros Hd Hc Hrows. destruct s as [h lg]; simpl in *.
  assert (Hempty : empty d || empty c = true).
  { apply orb_true_iff.
    destruct Hrows as [Hr|Hr]; [left; destruct d|right; destruct c];
      simpl in *; try done; by apply Nat.eqb_eq. }
  destruct (merge_body_runs h lg df cdf col d c Hd Hc) as [garbage Hbody].
  unfold merge_with_bundesland, try_except. rewrite Hbody.
  unfold merge_pure. by rewrite Hempty.
Qed.

Lemma empty_input_is_returned_witness :
  merge_with_bundesland 0 1 "city" (store_of parks no_cities)
  = Some (Ret 0, State [parks; no_cities] ([] ++ [Warning_empty]))
  ∧ merge_body 0 1 "city" (store_of parks no_cities)
    = Some (Ret 0, State [parks; no_cities] ([] ++ [Warning_empty]))
  ∧ statistics_of [Warning_empty] = (0, 0, 0, []).
Proof.
  apply (empty_input_is_returned (store_of parks no_cities) 0 1 "city"
           parks no_cities); [reflexivity..|right; reflexivity].
Defined.

(** ** The similarity measure (C4) *)

(** The measure is not the Jaccard index: "abc" and "abd" share 2
    characters and score 2/3, while their union has 4 characters. *)
Example score_is_not_jaccard :
  score (py "abc") (py "abd") = Ret (2 # 3)
  ∧ union_size (py "abc") (py "abd") = 4.
Proof. split; reflexivity. Qed.

(** C4.  For every city name and candidate the scan compares, the score
    of line 233 is the number of distinct characters they share over the
    larger of their two numbers of distinct characters (not over the size
    of the union), and that is the score the scan tests and records; when
    both have no character the division raises [ZeroDivisionError]. *)
Theorem score_is_shared_over_larger (city_name candidate : pystr)
    (best : option pystr * Q) :
  score city_name candidate
  = (if decide (city_name = [] ∧ candidate = []) then Raise ZeroDivisionError
     else Ret (spec_score city_name candidate))
  ∧ scan_step city_name best (Some candidate)
    = (if decide (city_name = [] ∧ candidate = []) then Raise ZeroDivisionError
       else if Qgtb (spec_score city_name candidate) best.2
               && Qgtb (spec_score city_name candidate) (1 # 2)
            then Ret (Some candidate, spec_score city_name candidate)
            else Ret best).
Proof.
  split; [apply score_spec|].
  unfold scan_step. rewrite score_spec. by case_decide.
Qed.

(** ** What an enriched result is *)

(** With the three columns at hand: the call returns, and if what it
    returns is not the reference it was given, it is the enriched frame of
    a fuzzy phase that completed, returned by the body of the [try]. *)
Lemma merge_returns `{Unicode} s df cdf col d c raw stadt values :
  heap s !! df = Some d → heap s !! cdf = Some c →
  lookup_col col d = Some raw →
  lookup_col "Stadt" c = Some stadt →
  lookup_col "Bundesland" c = Some values →
  ∃ l s',
    merge_with_bundesland df cdf col s = Some (Ret l, s')
    ∧ ∀ d', l ≠ df → heap s' !! l = Some d' →
        ∃ b' lg1,
          fuzzy_phase (dict_zip (clean stadt) values) (unique (clean stadt))
            (clean raw) (series_map (dict_zip (clean stadt) values) (clean raw))
          = (Ret b', lg1)
          ∧ d' = enriched_frame d col (clean raw) b'
          ∧ merge_body df cdf col s = Some (Ret l, s')
          ∧ length (heap s) ≤ l.
Proof.
  intros Hd Hc Hraw Hstadt Hvalues. destruct s as [h lg]; simpl in *.
  destruct (merge_body_runs h lg df cdf col d c Hd Hc) as [garbage Hbody].
  unfold merge_with_bundesland, try_except. rewrite Hbody.
  destruct (merge_pure d c col) as [[|d0|e] lg0] eqn:Hpure.
  - eexists _, _. split; [done|]. by intros d' Hne.
  - eexists _, _. split; [done|]. intros d' _ Hd'. simpl in Hd'.
    rewrite app_assoc, <- length_app, list_lookup_middle in Hd' by done.
    injection Hd' as <-.
    apply merge_pure_Enriched in Hpure
      as (raw0 & stadt0 & values0 & b' & lg1 & Hr & Hs & Hv & Hphase & -> & _).
    rewrite Hraw in Hr. rewrite Hstadt in Hs. rewrite Hvalues in Hv.
    injection Hr as <-. injection Hs as <-. injection Hv as <-.
    exists b', lg1. split_and!; [done..|lia].
  - eexists _, _. split; [done|]. by intros d' Hne.
Qed.

(** ** The fuzzy threshold (C3) *)

(** C3.  Take a row for which the exact pass found no region.  Whenever
    the call returns an enriched table, either some candidate scored above
    0.5 against the row's cleaned city name and the row holds the region
    the mapping has for that candidate, or no candidate scored above 0.5 and
    the row has no region. *)
Theorem fuzzy_threshold `{Unicode} s df cdf col d c raw stadt values :
  heap s !! df = Some d → heap s !! cdf = Some c →
  lookup_col col d = Some raw →
  lookup_col "Stadt" c = Some stadt →
  lookup_col "Bundesland" c = Some values →
  ∃ l s',
    merge_with_bundesland df cdf col s = Some (Ret l, s')
    ∧ ∀ d' bundesland i,
        l ≠ df → heap s' !! l = Some d' →
        lookup_col "bundesland" d' = Some bundesland →
        series_map (dict_zip (clean stadt) values) (clean raw) !! i = Some None →
        (∃ name m q region,
            clean raw !! i = Some (Some name)
            ∧ Some m ∈ clean stadt
            ∧ score name m = Ret q ∧ (1 # 2 < q)%Q
            ∧ dict_zip (clean stadt) values !! Some m = Some region
            ∧ bundesland !! i = Some region)
        ∨ (bundesland !! i = Some None
           ∧ ∀ name a q,
               clean raw !! i = Some (Some name) → Some a ∈ clean stadt →
               score name a = Ret q → (q <= 1 # 2)%Q).
Proof.
  intros Hd Hc Hraw Hstadt Hvalues.
  destruct (merge_returns s df cdf col d c raw stadt values)
    as (l & s' & Hrun & Hfresh); try done.
  exists l, s'. split; [done|]. intros d' b i Hne Hd' Hb Hexact.
  destruct (Hfresh d' Hne Hd') as (b' & lg1 & Hphase & -> & _).
  rewrite enriched_bundesland in Hb. injection Hb as <-.
  apply fuzzy_phase_lookup in Hphase as [_ Hrows].
  destruct (Hrows i) as [_ Hfuzzy].
  destruct (Hfuzzy Hexact) as (city & Hcity & [[Hnone Hb]|(name & m & region & Hsome & Hb)]).
  - right. split; [done|]. intros name a q Hname Ha Hq.
    rewrite Hcity in Hname. injection Hname as ->.
    apply fuzzy_choice_None in Hnone as [q0 Hscan].
    eapply scan_candidates_no_match; [done| |done]. by apply elem_of_unique.
  - left. apply fuzzy_choice_Some in Hsome as (-> & Hm & q & Hscan).
    apply scan_candidates_match in Hscan as (Hin & Hq & Hhalf & _).
    exists name, m, q, region. split_and!; try done.
    by apply (proj1 (elem_of_unique _ _)).
Qed.

Lemma fuzzy_threshold_witness :
  ∃ l s',
    merge_with_bundesland 0 1 "city" (store_of parks cities) = Some (Ret l, s')
    ∧ ∀ d' bundesland i,
        l ≠ 0 → heap s' !! l = Some d' →
        lookup_col "bundesland" d' = Some bundesland →
        series_map (dict_zip (clean [Some Berlin; Some Muenchen_umlaut])
                      [Some Berlin; Some Bayern])
          (clean [Some (py "berlin "); Some (py "Muenchen"); None]) !! i
        = Some None →
        (∃ name m q region,
            clean [Some (py "berlin "); Some (py "Muenchen"); None] !! i
            = Some (Some name)
            ∧ Some m ∈ clean [Some Berlin; Some Muenchen_umlaut]
            ∧ score name m = Ret q ∧ (1 # 2 < q)%Q
            ∧ dict_zip (clean [Some Berlin; Some Muenchen_umlaut])
                [Some Berlin; Some Bayern] !! Some m = Some region
            ∧ bundesland !! i = Some region)
        ∨ (bundesland !! i = Some None
           ∧ ∀ name a q,
               clean [Some (py "berlin "); Some (py "Muenchen"); None] !! i
               = Some (Some name) →
               Some a ∈ clean [Some Berlin; Some Muenchen_umlaut] →
               score name a = Ret q → (q <= 1 # 2)%Q).
Proof.
  apply (fuzzy_threshold (store_of parks cities) 0 1 "city" parks cities);
    reflexivity.
Defined.

(** Scenario 2 of the specification: "Muenchen" against "München" scores
    5/6, above the threshold, and the row gets "Bayern". *)
Example muenchen_is_fuzzy_matched :
  score (py "muenchen") (normalize Muenchen_umlaut) = Ret (5 # 6)
  ∧ fuzzy_choice (dict_zip (clean [Some Berlin; Some Muenchen_umlaut])
                    [Some Berlin; Some Bayern])
      (unique (clean [Some Berlin; Some Muenchen_umlaut]))
      (Some (py "muenchen"))
    = Ret (Some (py "muenchen", normalize Muenchen_umlaut, Some Bayern)).
Proof. split; reflexivity. Qed.

(** ** Completed merges on the store *)

(** On non-empty, well-formed tables with the three columns, and unless a
    blank facility city meets a blank reference name without region, the
    body of the [try] returns a new enriched table. *)
Lemma merge_enriches `{Unicode} s df cdf col d c raw stadt values :
  heap s !! df = Some d → heap s !! cdf = Some c →
  well_formed d → well_formed c →
  lookup_col col d = Some raw →
  lookup_col "Stadt" c = Some stadt →
  lookup_col "Bundesland" c = Some values →
  raw ≠ [] → stadt ≠ [] →
  (Some [] ∈ clean raw → Some [] ∈ clean stadt →
   ∃ g, dict_zip (clean stadt) values !! Some [] = Some (Some g)) →
  ∃ l s' b' lg1,
    merge_body df cdf col s = Some (Ret l, s')
    ∧ merge_with_bundesland df cdf col s = Some (Ret l, s')
    ∧ l ≠ df
    ∧ heap s' !! l = Some (enriched_frame d col (clean raw) b')
    ∧ fuzzy_phase (dict_zip (clean stadt) values) (unique (clean stadt))
        (clean raw) (series_map (dict_zip (clean stadt) values) (clean raw))
      = (Ret b', lg1)
    ∧ log s' = log s ++ lg1
               ++ report (nrows d) b'
                    (if decide (col = "bundesland") then b' else raw).
Proof.
  intros Hd Hc Hwfd Hwfc Hraw Hstadt Hvalues Hrne Hsne Hblank.
  assert (Hnd : empty d = false).
  { pose proof (well_formed_lookup _ _ _ Hwfd Hraw) as Hlen.
    destruct d as [|p d]; [done|]. simpl. apply Nat.eqb_neq.
    simpl in Hlen. rewrite <- Hlen. by destruct raw. }
  assert (Hnc : empty c = false).
  { pose proof (well_formed_lookup _ _ _ Hwfc Hstadt) as Hlen.
    destruct c as [|p c]; [done|]. simpl. apply Nat.eqb_neq.
    simpl in Hlen. rewrite <- Hlen. by destruct stadt. }
  assert (Hlen : length stadt ≤ length values).
  { rewrite (well_formed_lookup _ _ _ Hwfc Hstadt).
    by rewrite (well_formed_lookup _ _ _ Hwfc Hvalues). }
  destruct (merge_pure_completes d c col raw stadt values)
    as (b' & lg1 & Hphase & Hpure); try done.
  destruct s as [h lg]; simpl in *.
  destruct (merge_body_runs h lg df cdf col d c Hd Hc) as [garbage Hbody].
  rewrite Hpure in Hbody.
  eexists _, _, b', lg1. split; [exact Hbody|].
  unfold merge_with_bundesland, try_except. rewrite Hbody. simpl.
  split_and!; try done.
  - apply lookup_lt_Some in Hd. lia.
  - by rewrite app_assoc, <- length_app, list_lookup_middle.
Qed.

(** If every reference row has a region, the mapping has one for every
    reference name. *)
Lemma regions_present `{Unicode} (stadt values : Series) (k : cell) :
  Forall is_Some values → length stadt ≤ length values →
  k ∈ clean stadt → ∃ g, dict_zip (clean stadt) values !! k = Some (Some g).
Proof.
  intros Hall Hlen [j Hj]%list_elem_of_lookup.
  destruct (dict_zip_is_Some (clean stadt) values j k) as [v Hv]; [done| |].
  { apply lookup_lt_Some in Hj. rewrite length_clean in Hj. lia. }
  rewrite Hv. destruct (dict_zip_origin _ _ _ _ Hv) as (j' & _ & Hj').
  rewrite Forall_forall in Hall.
  destruct (Hall v) as [g ->]; [by eapply list_elem_of_lookup_2|]. by exists g.
Qed.

(** A row the exact pass resolves keeps its region to the end. *)
Lemma exact_row_kept mapping (cands cleaned : Series) b' lg i key g :
  fuzzy_phase mapping cands cleaned (series_map mapping cleaned) = (Ret b', lg) →
  cleaned !! i = Some key → mapping !! key = Some (Some g) →
  series_map mapping cleaned !! i = Some (Some g)
  ∧ (i ∉ masked_index (isna (series_map mapping cleaned)))
  ∧ b' !! i = Some (Some g).
Proof.
  intros Hphase Hkey Hmap.
  assert (Hexact : series_map mapping cleaned !! i = Some (Some g)).
  { rewrite lookup_series_map, Hkey. simpl. by rewrite Hmap. }
  split_and!; [done| |].
  - rewrite elem_of_masked_index. by rewrite Hexact.
  - apply fuzzy_phase_lookup in Hphase as [_ Hrows].
    destruct (Hrows i) as [Hkeep _]. rewrite Hkeep; [done|]. by rewrite Hexact.
Qed.

(** ** Duplicate reference rows (C6) and exact matches (C2) *)

(** The mapping holds, for a name, the region of the last reference row
    whose cleaned name it is. *)
Lemma mapping_last_row `{Unicode} (stadt values : Series) j x v :
  stadt !! j = Some (Some x) → values !! j = Some v →
  (∀ j' x', j < j' → stadt !! j' = Some (Some x') → normalize x' ≠ normalize x) →
  dict_zip (clean stadt) values !! Some (normalize x) = Some v.
Proof.
  intros Hj Hv Hlast. apply (dict_zip_last _ _ j); [|done|].
  - by rewrite lookup_clean, Hj.
  - intros j' Hlt _. rewrite lookup_clean.
    destruct (stadt !! j') as [[x'|]|] eqn:Hj'; simpl; [|done..].
    intros [= Heq]. by apply (Hlast j' x').
Qed.



Lemma well_formed_parks : well_formed parks.
Proof. repeat constructor. Qed.

Lemma well_formed_cities_twice : well_formed cities_twice.
Proof. repeat constructor. Qed.

Lemma well_formed_cities_twice_gap : well_formed cities_twice_gap.
Proof. repeat constructor. Qed.

Lemma no_blank_city_in_parks :
  Some [] ∉ clean [Some (py "berlin "); Some (py "Muenchen"); None].
Proof.
  intros Hin. vm_compute in Hin.
  repeat (apply elem_of_cons in Hin as [Hin|Hin]; [discriminate Hin|]).
  by apply not_elem_of_nil in Hin.
Qed.


(** C2 as stated fails on the duplicate rows of scenario 5: the cleaned
    city of the first facility equals the cleaned name of reference row 0,
    whose region is "Berlin", and the facility gets "BerlinAlt". *)
Lemma exact_match_not_of_every_row :
  (∃ y x, lookup_col "city" parks ≫= (.!! 0) = Some (Some y)
          ∧ lookup_col "Stadt" cities_twice ≫= (.!! 0) = Some (Some x)
          ∧ normalize y = normalize x
          ∧ lookup_col "Bundesland" cities_twice ≫= (.!! 0) = Some (Some Berlin))
  ∧ (∃ s' d' bundesland,
       merge_with_bundesland 0 1 "city" (store_of parks cities_twice)
       = Some (Ret 4, s')
       ∧ heap s' !! 4 = Some d'
       ∧ lookup_col "bundesland" d' = Some bundesland
       ∧ bundesland !! 0 = Some (Some BerlinAlt))
  ∧ BerlinAlt ≠ Berlin.
Proof.
  split_and!.
  - by eexists _, _.
  - by eexists _, _, _.
  - done.
Qed.

(** C2, amended.  A facility whose cleaned city equals the cleaned name of
    a reference row gets the region of the last reference row with that
    cleaned name, when that row has one: the call returns a new table that
    holds this region for the facility, the exact pass wrote it, and the
    fuzzy loop never visits the row, whatever the other candidates are and
    whether or not the other reference rows have a region.  The one
    proviso is that the call does not fall back: no facility with a blank
    city meets a reference row with a blank name for which the mapping
    holds no region (the score of line 233 then divides by zero). *)
Theorem exact_match_priority `{Unicode} s df cdf col d c raw stadt values
    i y j x g :
  heap s !! df = Some d → heap s !! cdf = Some c →
  well_formed d → well_formed c →
  lookup_col col d = Some raw →
  lookup_col "Stadt" c = Some stadt →
  lookup_col "Bundesland" c = Some values →
  (Some [] ∈ clean raw → Some [] ∈ clean stadt →
   ∃ g0, dict_zip (clean stadt) values !! Some [] = Some (Some g0)) →
  raw !! i = Some (Some y) → stadt !! j = Some (Some x) →
  normalize y = normalize x →
  (∀ j' x', j < j' → stadt !! j' = Some (Some x') → normalize x' ≠ normalize x) →
  values !! j = Some (Some g) →
  ∃ l s' d' bundesland,
    merge_with_bundesland df cdf col s = Some (Ret l, s')
    ∧ l ≠ df ∧ heap s' !! l = Some d'
    ∧ lookup_col "bundesland" d' = Some bundesland
    ∧ bundesland !! i = Some (Some g)
    ∧ series_map (dict_zip (clean stadt) values) (clean raw) !! i = Some (Some g)
    ∧ (i ∉ masked_index
             (isna (series_map (dict_zip (clean stadt) values) (clean raw)))).
Proof.
  intros Hd Hc Hwfd Hwfc Hraw Hstadt Hvalues Hblank Hi Hj Hy Hlast Hg.
  pose proof (mapping_last_row stadt values j x (Some g) Hj Hg Hlast) as Hmap.
  destruct (merge_enriches s df cdf col d c raw stadt values)
    as (l & s' & b' & lg1 & _ & Hrun & Hne & Hl & Hphase & _); try done.
  { by intros ->. }
  { by intros ->. }
  destruct (exact_row_kept _ _ _ _ _ i (Some (normalize x)) g Hphase)
    as (Hexact & Hskip & Hb); [|done|].
  { rewrite lookup_clean, Hi. simpl. by rewrite Hy. }
  exists l, s', (enriched_frame d col (clean raw) b'), b'.
  split_and!; try done. apply enriched_bundesland.
Qed.

Lemma exact_match_priority_witness :
  ∃ l s' d' bundesland,
    merge_with_bundesland 0 1 "city" (store_of parks cities_twice_gap)
    = Some (Ret l, s')
    ∧ l ≠ 0 ∧ heap s' !! l = Some d'
    ∧ lookup_col "bundesland" d' = Some bundesland
    ∧ bundesland !! 0 = Some (Some BerlinAlt)
    ∧ series_map
        (dict_zip (clean [Some Berlin; Some Berlin; Some (py "Bonn")])
           [Some Berlin; Some BerlinAlt; None])
        (clean [Some (py "berlin "); Some (py "Muenchen"); None]) !! 0
      = Some (Some BerlinAlt)
    ∧ (0 ∉ masked_index
             (isna (series_map
                      (dict_zip (clean [Some Berlin; Some Berlin; Some (py "Bonn")])
                         [Some Berlin; Some BerlinAlt; None])
                      (clean [Some (py "berlin "); Some (py "Muenchen"); None])))).
Proof.
  apply (exact_match_priority (store_of parks cities_twice_gap) 0 1 "city"
           parks cities_twice_gap _ [Some Berlin; Some Berlin; Some (py "Bonn")]
           [Some Berlin; Some BerlinAlt; None] 0 (py "berlin ") 1 Berlin BerlinAlt);
    try reflexivity.
  - apply well_formed_parks.
  - apply well_formed_cities_twice_gap.
  - intros Hin. by destruct no_blank_city_in_parks.
  - intros [|[|[|j']]] x' Hj; [lia|lia| |discriminate].
    intros [= <-]. by vm_compute.
Defined.

(** ** Missing and empty city values (C7) *)


Lemma mask_sum_notna_lt (b : Series) i :
  b !! i = Some None → mask_sum (notna b) < length b.
Proof.
  intros Hi. unfold mask_sum, notna.
  rewrite <- (length_fmap (λ c : cell, bool_decide (c ≠ None)) b).
  apply (length_filter_lt _ _ false); [|done].
  apply list_elem_of_fmap. exists None. split; [done|].
  by eapply list_elem_of_lookup_2.
Qed.





(** ** Determinism (C8) *)

(** Ties are broken by the order of the reference table: the best match
    scored at least as high as the candidate of any row, and it appears in
    the table no later than any row whose candidate scored the same. *)
Lemma scan_breaks_ties_by_row (stadt_clean : Series) name m q :
  scan_candidates name (unique stadt_clean) = Ret (Some m, q) →
  ∀ j a q', stadt_clean !! j = Some (Some a) → score name a = Ret q' →
    (q' <= q)%Q
    ∧ ((q' == q)%Q → ∃ j0, j0 ≤ j ∧ stadt_clean !! j0 = Some (Some m)).
Proof.
  intros Hscan j a q' Hj Hq'.
  apply scan_candidates_match in Hscan as (_ & _ & _ & Hmax).
  destruct (unique_from_order stadt_clean [] j (Some a) Hj)
    as (p & Hp & Horder); [apply not_elem_of_nil|].
  destruct (Hmax p a q' Hp Hq') as [Hle Htie]. split; [done|].
  intros Heq. destruct (Htie Heq) as (p0 & Hp0 & Hm).
  by apply (Horder p0 (Some m)).
Qed.

Lemma first_occurrence (x : cell) (l : Series) :
  x ∈ l → ∃ j0, l !! j0 = Some x ∧ ∀ j, l !! j = Some x → j0 ≤ j.
Proof.
  induction l as [|a l IH]; [by intros ?%not_elem_of_nil|].
  destruct (decide (a = x)) as [->|Hne].
  - intros _. exists 0. split; [done|]. intros j _. lia.
  - intros [?|Hin]%elem_of_cons; [done|].
    destruct (IH Hin) as (j0 & Hj0 & Hmin). exists (S j0). split; [done|].
    intros [|j] Hj; simpl in Hj; [congruence|]. apply Hmin in Hj. lia.
Qed.

(** C8.  Two calls on the same tables and the same city column, in any two
    stores and at any references, both return; the tables they return are
    equal, and so are the lines they log (all that is reported of
    statistics); one falls back to its input exactly when the other does.
    On rectangular tables whose name columns hold a [str], and unless a
    blank facility city meets a blank reference name without a region, the
    calls do return an enriched table.  What the fuzzy pass writes into it
    is fixed by the order of the reference table: a row the exact pass left
    without a region, whose name scores above 0.5 against some reference
    row, holds the region the mapping has for the name [m] of reference row
    [j0], where no reference row scores higher than row [j0] and every row
    that scores as high comes after it. *)
Theorem merge_is_deterministic `{Unicode} s1 s2 df1 cdf1 df2 cdf2 col d c :
  heap s1 !! df1 = Some d → heap s1 !! cdf1 = Some c →
  heap s2 !! df2 = Some d → heap s2 !! cdf2 = Some c →
  ∃ l1 s1' l2 s2' d' lg,
    merge_with_bundesland df1 cdf1 col s1 = Some (Ret l1, s1')
    ∧ merge_with_bundesland df2 cdf2 col s2 = Some (Ret l2, s2')
    ∧ heap s1' !! l1 = Some d' ∧ heap s2' !! l2 = Some d'
    ∧ log s1' = log s1 ++ lg ∧ log s2' = log s2 ++ lg
    ∧ (l1 = df1 ↔ l2 = df2)
    ∧ ∀ raw stadt values,
        lookup_col col d = Some raw →
        lookup_col "Stadt" c = Some stadt →
        lookup_col "Bundesland" c = Some values →
        (well_formed d → well_formed c → has_str raw → has_str stadt →
         (Some [] ∈ clean raw → Some [] ∈ clean stadt →
          ∃ g, dict_zip (clean stadt) values !! Some [] = Some (Some g)) →
         l1 ≠ df1)
        ∧ (l1 ≠ df1 →
           ∃ bundesland,
             lookup_col "bundesland" d' = Some bundesland
             ∧ ∀ i name,
                 clean raw !! i = Some (Some name) →
                 series_map (dict_zip (clean stadt) values) (clean raw) !! i
                 = Some None →
                 (∃ j a q, clean stadt !! j = Some (Some a)
                           ∧ score name a = Ret q ∧ (1 # 2 < q)%Q) →
                 ∃ j0 m q0,
                   clean stadt !! j0 = Some (Some m)
                   ∧ score name m = Ret q0 ∧ (1 # 2 < q0)%Q
                   ∧ bundesland !! i
                     = Some (default None
                               (dict_zip (clean stadt) values !! Some m))
                   ∧ ∀ j a q,
                       clean stadt !! j = Some (Some a) → score name a = Ret q →
                       (q <= q0)%Q ∧ ((q == q0)%Q → j0 ≤ j)).
Proof.
  intros Hd1 Hc1 Hd2 Hc2.
  destruct (merge_runs s1 df1 cdf1 col d c Hd1 Hc1) as (l1 & g1 & Hrun1 & Hres1).
  destruct (merge_runs s2 df2 cdf2 col d c Hd2 Hc2) as (l2 & g2 & Hrun2 & Hres2).
  assert (Henrich : ∀ raw stadt values,
    lookup_col col d = Some raw →
    lookup_col "Stadt" c = Some stadt →
    lookup_col "Bundesland" c = Some values →
    well_formed d → well_formed c → has_str raw → has_str stadt →
    (Some [] ∈ clean raw → Some [] ∈ clean stadt →
     ∃ g, dict_zip (clean stadt) values !! Some [] = Some (Some g)) →
    l1 ≠ df1).
  { intros raw stadt values Hraw Hstadt Hvalues Hwfd Hwfc Hsr Hss Hblank.
    destruct (merge_enriches s1 df1 cdf1 col d c raw stadt values)
      as (l & s' & b' & lg1 & _ & Hrun & Hne & _); try done.
    { intros ->. by apply Exists_nil in Hsr. }
    { intros ->. by apply Exists_nil in Hss. }
    rewrite Hrun1 in Hrun. by injection Hrun as -> _. }
  destruct (merge_pure d c col) as [[|d'|e] lg] eqn:Hpure; simpl in *.
  - destruct Hres1 as [-> ->]. destruct Hres2 as [-> ->].
    rewrite !app_nil_r in *. eexists _, _, _, _, d, lg.
    split_and!; [done..|].
    intros raw stadt values Hraw Hstadt Hvalues. split; [by eauto|done].
  - destruct Hres1 as [Hlen1 Hl1]. destruct Hres2 as [Hlen2 Hl2].
    rewrite !app_nil_r in *. eexists _, _, _, _, d', lg.
    split_and!; [done..| |].
    { apply lookup_lt_Some in Hd1, Hd2. split; intros ->; lia. }
    intros raw stadt values Hraw Hstadt Hvalues. split; [by eauto|]. intros _.
    apply merge_pure_Enriched in Hpure
      as (raw0 & stadt0 & values0 & b' & lg1 & Hr & Hs & Hv & Hphase & -> & _).
    rewrite Hraw in Hr. rewrite Hstadt in Hs. rewrite Hvalues in Hv.
    injection Hr as <-. injection Hs as <-. injection Hv as <-.
    exists b'. split; [apply enriched_bundesland|].
    intros i name Hname Hexact (j & a & q & Hj & Hq & Hhalf).
    apply fuzzy_phase_lookup in Hphase as [_ Hrows].
    destruct (Hrows i) as [_ Hfuzzy].
    destruct (Hfuzzy Hexact)
      as (city & Hcity & [[Hnone _]|(name' & m & region & Hsome & Hreg)]);
      rewrite Hname in Hcity; injection Hcity as <-.
    { apply fuzzy_choice_None in Hnone as [q0 Hscan].
      assert (Hle : (q <= 1 # 2)%Q).
      { eapply scan_candidates_no_match; [done| |done].
        apply elem_of_unique. by eapply list_elem_of_lookup_2. }
      lra. }
    apply fuzzy_choice_Some in Hsome as ([= <-] & Hm & q0 & Hscan).
    pose proof (scan_breaks_ties_by_row _ _ _ _ Hscan) as Hties.
    apply scan_candidates_match in Hscan as (Hin & Hq0 & Hhalf0 & _).
    apply (proj1 (elem_of_unique _ _)) in Hin.
    destruct (first_occurrence _ _ Hin) as (j0 & Hj0 & Hmin).
    exists j0, m, q0. split_and!; [done|done|done|by rewrite Hm|].
    intros j' a' q' Hj' Hq'. destruct (Hties j' a' q' Hj' Hq') as [Hle Htie].
    split; [done|]. intros Heq. destruct (Htie Heq) as (j1 & Hj1 & Hm1).
    apply Hmin in Hm1. lia.
  - subst l1 l2. eexists _, _, _, _, d, (lg ++ [Error_merging e]).
    split_and!; [done|done| | |done|done|done|]; simpl;
      try by apply lookup_app_l_Some.
    intros raw stadt values Hraw Hstadt Hvalues. split; [by eauto|done].
Qed.

Lemma merge_is_deterministic_witness :
  ∃ l1 s1' l2 s2' d' lg,
    merge_with_bundesland 0 1 "city" (store_of parks cities) = Some (Ret l1, s1')
    ∧ merge_with_bundesland 2 0 "city"
        (State [cities; no_cities; parks] [Warning_empty])
      = Some (Ret l2, s2')
    ∧ heap s1' !! l1 = Some d' ∧ heap s2' !! l2 = Some d'
    ∧ log s1' = [] ++ lg ∧ log s2' = [Warning_empty] ++ lg
    ∧ (l1 = 0 ↔ l2 = 2)
    ∧ ∀ raw stadt values,
        lookup_col "city" parks = Some raw →
        lookup_col "Stadt" cities = Some stadt →
        lookup_col "Bundesland" cities = Some values →
        (well_formed parks → well_formed cities → has_str raw → has_str stadt →
         (Some [] ∈ clean raw → Some [] ∈ clean stadt →
          ∃ g, dict_zip (clean stadt) values !! Some [] = Some (Some g)) →
         l1 ≠ 0)
        ∧ (l1 ≠ 0 →
           ∃ bundesland,
             lookup_col "bundesland" d' = Some bundesland
             ∧ ∀ i name,
                 clean raw !! i = Some (Some name) →
                 series_map (dict_zip (clean stadt) values) (clean raw) !! i
                 = Some None →
                 (∃ j a q, clean stadt !! j = Some (Some a)
                           ∧ score name a = Ret q ∧ (1 # 2 < q)%Q) →
                 ∃ j0 m q0,
                   clean stadt !! j0 = Some (Some m)
                   ∧ score name m = Ret q0 ∧ (1 # 2 < q0)%Q
                   ∧ bundesland !! i
                     = Some (default None
                               (dict_zip (clean stadt) values !! Some m))
                   ∧ ∀ j a q,
                       clean stadt !! j = Some (Some a) → score name a = Ret q →
                       (q <= q0)%Q ∧ ((q == q0)%Q → j0 ≤ j)).
Proof.
  apply (merge_is_deterministic (store_of parks cities)
           (State [cities; no_cities; parks] [Warning_empty]) 0 1 2 0 "city"
           parks cities); reflexivity.
Defined.

(** A tie: "ab" scores 1 against both "ba" and "ab"; the first row wins. *)
Example tie_goes_to_first_row :
  scan_candidates (py "ab") (unique [Some (py "ba"); Some (py "ab")])
  = Ret (Some (py "ba"), 2 # 2).
Proof. reflexivity. Qed.

(** The same in a returned table: "abc" matches no name exactly and scores
    1 against both "bca" and "cab"; the facility gets the region of "bca",
    the earlier row. *)
Example tie_in_the_returned_table :
  ∃ s' d',
    merge_with_bundesland 0 1 "city"
      (store_of [("city", [Some (py "abc")])]
         [("Stadt", [Some (py "bca"); Some (py "cab")]);
          ("Bundesland", [Some Berlin; Some Bayern])])
    = Some (Ret 4, s')
    ∧ heap s' !! 4 = Some d'
    ∧ lookup_col "bundesland" d' = Some [Some Berlin].
Proof. eexists _, _. split_and!; by vm_compute. Qed.

(** ** The input is not mutated (C9) *)

Lemma set_col_absent name s (d : DataFrame) :
  lookup_col name d = None → set_col name s d = d ++ [(name, s)].
Proof.
  induction d as [|[n c] r IH]; simpl; [done|].
  case_decide; [done|]. intros Hr. by rewrite IH.
Qed.

Lemma remove_col_absent name (d : DataFrame) :
  lookup_col name d = None → remove_col name d = d.
Proof.
  unfold remove_col. induction d as [|[n c] r IH]; simpl; [done|].
  case_decide; [done|]. intros Hr.
  rewrite filter_cons_True by done. by rewrite IH.
Qed.





(** * Further properties of the code *)

(** ** The similarity score (line 233) *)

(** The score does not depend on the order of its arguments; it lies
    between 0 and 1; and it is 1 exactly when the two names are made of the
    same characters, whatever their order and number. *)
Theorem score_symmetric_bounded (a b : pystr) :
  score a b = score b a
  ∧ ∀ q, score a b = Ret q →
      (0 <= q)%Q ∧ (q <= 1)%Q ∧ ((q == 1)%Q ↔ char_set a = char_set b).
Proof.
  split.
  { unfold score. by rewrite (comm_L (∩) (char_set a)), Nat.max_comm. }
  intros q. unfold score.
  set (A := char_set a). set (B := char_set b).
  pose proof (subseteq_size (A ∩ B) A (intersection_subseteq_l A B)) as HA.
  pose proof (subseteq_size (A ∩ B) B (intersection_subseteq_r A B)) as HB.
  destruct (Nat.eqb_spec (Nat.max (size A) (size B)) 0) as [Hz|Hnz]; [done|].
  intros [= <-].
  assert (Hpos : (Z.pos (Pos.of_nat (Nat.max (size A) (size B))))
                 = Z.of_nat (Nat.max (size A) (size B))).
  { by rewrite <- positive_nat_Z, Nat2Pos.id. }
  unfold Qle, Qeq. simpl. rewrite Hpos. split_and!; [lia|lia|].
  split.
  - intros Heq.
    assert (Hsize : size (A ∩ B) = Nat.max (size A) (size B)) by lia.
    assert (HAB : A ∩ B = A).
    { apply set_subseteq_size_eq; [apply intersection_subseteq_l|lia]. }
    assert (HBA : A ∩ B = B).
    { apply set_subseteq_size_eq; [apply intersection_subseteq_r|lia]. }
    congruence.
  - intros Heq. rewrite Heq. rewrite (idemp_L (∩) B). lia.
Qed.

(** ** Where a region comes from (lines 213-239) *)

(** Whenever the call returns an enriched table, every region in it is the
    Bundesland of a row of the city table: a row whose cleaned name is the
    cleaned city of the facility, or scores above 0.5 against it.  No region
    is made up, and none is taken from a dissimilar name. *)
Theorem regions_come_from_reference `{Unicode} s df cdf col d c raw stadt values :
  heap s !! df = Some d → heap s !! cdf = Some c →
  lookup_col col d = Some raw →
  lookup_col "Stadt" c = Some stadt →
  lookup_col "Bundesland" c = Some values →
  ∃ l s',
    merge_with_bundesland df cdf col s = Some (Ret l, s')
    ∧ ∀ d' bundesland i g,
        l ≠ df → heap s' !! l = Some d' →
        lookup_col "bundesland" d' = Some bundesland →
        bundesland !! i = Some (Some g) →
        ∃ j city key,
          clean raw !! i = Some city
          ∧ clean stadt !! j = Some key
          ∧ values !! j = Some (Some g)
          ∧ (key = city
             ∨ ∃ name m q,
                 city = Some name ∧ key = Some m
                 ∧ score name m = Ret q ∧ (1 # 2 < q)%Q).
Proof.
  intros Hd Hc Hraw Hstadt Hvalues.
  destruct (merge_returns s df cdf col d c raw stadt values)
    as (l & s' & Hrun & Hfresh); try done.
  exists l, s'. split; [done|]. intros d' b i g Hne Hd' Hb Hg.
  destruct (Hfresh d' Hne Hd') as (b' & lg1 & Hphase & -> & _).
  rewrite enriched_bundesland in Hb. injection Hb as <-.
  apply fuzzy_phase_lookup in Hphase as [Hlen Hrows].
  destruct (Hrows i) as [Hkeep Hfuzzy].
  set (mapping := dict_zip (clean stadt) values) in *.
  destruct (decide (series_map mapping (clean raw) !! i = Some None))
    as [Hexact|Hexact].
  - destruct (Hfuzzy Hexact)
      as (city & Hcity & [[_ Hn]|(name & m & region & Hsome & Hreg)]);
      [congruence|].
    rewrite Hg in Hreg. injection Hreg as <-.
    apply fuzzy_choice_Some in Hsome as (-> & Hm & q & Hscan).
    apply scan_candidates_match in Hscan as (_ & Hq & Hhalf & _).
    apply dict_zip_origin in Hm as (j & Hj & Hv).
    exists j, (Some name), (Some m). split_and!; try done.
    right. by exists name, m, q.
  - rewrite (Hkeep Hexact), lookup_series_map in Hg.
    destruct (clean raw !! i) as [city|] eqn:Hcity; [|done].
    simpl in Hg. injection Hg as Hg.
    destruct (mapping !! city) as [v|] eqn:Hm; [|done]. simpl in Hg. subst v.
    apply dict_zip_origin in Hm as (j & Hj & Hv).
    exists j, city, city. split_and!; try done. by left.
Qed.

Lemma regions_come_from_reference_witness :
  ∃ l s',
    merge_with_bundesland 0 1 "city" (store_of parks cities) = Some (Ret l, s')
    ∧ ∀ d' bundesland i g,
        l ≠ 0 → heap s' !! l = Some d' →
        lookup_col "bundesland" d' = Some bundesland →
        bundesland !! i = Some (Some g) →
        ∃ j city key,
          clean [Some (py "berlin "); Some (py "Muenchen"); None] !! i = Some city
          ∧ clean [Some Berlin; Some Muenchen_umlaut] !! j = Some key
          ∧ [Some Berlin; Some Bayern] !! j = Some (Some g)
          ∧ (key = city
             ∨ ∃ name m q,
                 city = Some name ∧ key = Some m
                 ∧ score name m = Ret q ∧ (1 # 2 < q)%Q).
Proof.
  apply (regions_come_from_reference (store_of parks cities) 0 1 "city"
           parks cities); reflexivity.
Defined.

(** ** Rows are resolved independently (lines 216-239) *)

Lemma fuzzy_phase_rowwise mapping (cands cleaned : Series) b' lg :
  fuzzy_phase mapping cands cleaned (series_map mapping cleaned) = (Ret b', lg) →
  ∀ i city, cleaned !! i = Some city →
    ∃ v, b' !! i = Some v ∧ region_for mapping cands city = Ret v.
Proof.
  intros Hphase i city Hcity.
  apply fuzzy_phase_lookup in Hphase as [_ Hrows].
  destruct (Hrows i) as [Hkeep Hfuzzy].
  assert (Hexact : series_map mapping cleaned !! i
                   = Some (default None (mapping !! city))).
  { by rewrite lookup_series_map, Hcity. }
  unfold region_for.
  destruct (default None (mapping !! city)) as [g|] eqn:Hm.
  - exists (Some g). split; [|done]. rewrite Hkeep; [done|]. by rewrite Hexact.
  - destruct (Hfuzzy Hexact)
      as (city' & Hc' & [[Hnone Hb]|(name & m & region & Hsome & Hb)]);
      rewrite Hcity in Hc'; injection Hc' as <-.
    + exists None. by rewrite Hnone.
    + exists region. by rewrite Hsome.
Qed.

Lemma fuzzy_phase_completes mapping (cands cleaned : Series) :
  (∀ city, city ∈ cleaned → ∃ v, region_for mapping cands city = Ret v) →
  ∃ b' lg,
    fuzzy_phase mapping cands cleaned (series_map mapping cleaned) = (Ret b', lg).
Proof.
  intros Hall. apply fuzzy_phase_total. intros i Hi.
  rewrite lookup_series_map in Hi.
  destruct (cleaned !! i) as [city|] eqn:Hcity; [|done].
  simpl in Hi. injection Hi as Hi.
  destruct (Hall city) as [v Hv]; [by eapply list_elem_of_lookup_2|].
  unfold region_for in Hv. rewrite Hi in Hv.
  destruct (fuzzy_choice mapping cands city) as [r|e] eqn:Hr; [|done].
  by exists city, r.
Qed.

Section MergePure.
Context `{Unicode}.

Lemma merge_pure_nonempty d c col d' lg :
  merge_pure d c col = (Enriched d', lg) → empty d = false ∧ empty c = false.
Proof.
  unfold merge_pure. destruct (empty d) eqn:Hd; [done|].
  destruct (empty c) eqn:Hc; done.
Qed.

Lemma merge_pure_of_phase d c col raw stadt values b' lg1 :
  empty d = false → empty c = false →
  lookup_col col d = Some raw →
  lookup_col "Stadt" c = Some stadt →
  lookup_col "Bundesland" c = Some values →
  fuzzy_phase (dict_zip (clean stadt) values) (unique (clean stadt))
    (clean raw) (series_map (dict_zip (clean stadt) values) (clean raw))
  = (Ret b', lg1) →
  (merge_pure d c col).1 = Enriched (enriched_frame d col (clean raw) b').
Proof.
  intros Hd Hc Hraw Hstadt Hvalues Hphase.
  unfold merge_pure. rewrite Hd, Hc, Hraw, Hstadt, Hvalues. simpl.
  by rewrite Hphase.
Qed.

(** The call returned an enriched table [d']: what it was computed from. *)
Lemma merge_enriched_inv s df cdf col d c l s' d' :
  heap s !! df = Some d → heap s !! cdf = Some c →
  merge_with_bundesland df cdf col s = Some (Ret l, s') →
  l ≠ df → heap s' !! l = Some d' →
  ∃ raw stadt values b' lg1,
    empty d = false ∧ empty c = false
    ∧ lookup_col col d = Some raw
    ∧ lookup_col "Stadt" c = Some stadt
    ∧ lookup_col "Bundesland" c = Some values
    ∧ fuzzy_phase (dict_zip (clean stadt) values) (unique (clean stadt))
        (clean raw) (series_map (dict_zip (clean stadt) values) (clean raw))
      = (Ret b', lg1)
    ∧ d' = enriched_frame d col (clean raw) b'
    ∧ log s' = log s ++ lg1
               ++ report (nrows d') b'
                    (if decide (col = "bundesland") then b' else raw)
    ∧ length (heap s) ≤ l
    ∧ (∀ l0 x, heap s !! l0 = Some x → heap s' !! l0 = Some x).
Proof.
  intros Hd Hc Hrun Hne Hd'.
  destruct (merge_runs s df cdf col d c Hd Hc) as (l0 & garbage & Hrun0 & Hres).
  rewrite Hrun in Hrun0. injection Hrun0 as <- ->.
  destruct (merge_pure d c col) as [[|d0|e] lg] eqn:Hpure; simpl in *.
  - by destruct Hres.
  - destruct Hres as [Hlen Hl]. rewrite Hd' in Hl. injection Hl as <-.
    destruct (merge_pure_nonempty _ _ _ _ _ Hpure) as [He1 He2].
    apply merge_pure_Enriched in Hpure
      as (raw & stadt & values & b' & lg1 & ? & ? & ? & ? & -> & ->).
    exists raw, stadt, values, b', lg1.
    split_and!; try done; [by rewrite app_nil_r, app_assoc|].
    intros l0 x Hl0. by apply lookup_app_l_Some.
  - done.
Qed.

(** The call returns an enriched table when the tables are not empty, the
    columns are there and the fuzzy phase completes. *)
Lemma merge_enriches_of_phase s df cdf col d c raw stadt values b' lg1 :
  heap s !! df = Some d → heap s !! cdf = Some c →
  empty d = false → empty c = false →
  lookup_col col d = Some raw →
  lookup_col "Stadt" c = Some stadt →
  lookup_col "Bundesland" c = Some values →
  fuzzy_phase (dict_zip (clean stadt) values) (unique (clean stadt))
    (clean raw) (series_map (dict_zip (clean stadt) values) (clean raw))
  = (Ret b', lg1) →
  ∃ l s',
    merge_with_bundesland df cdf col s = Some (Ret l, s')
    ∧ l ≠ df ∧ length (heap s) ≤ l
    ∧ heap s' !! l = Some (enriched_frame d col (clean raw) b')
    ∧ (∀ l0 x, heap s !! l0 = Some x → heap s' !! l0 = Some x).
Proof.
  intros Hd Hc He1 He2 Hraw Hstadt Hvalues Hphase.
  destruct (merge_runs s df cdf col d c Hd Hc) as (l & garbage & Hrun & Hres).
  rewrite (merge_pure_of_phase d c col raw stadt values b' lg1) in Hres by done.
  destruct Hres as [Hl Hd'].
  eexists l, _. split; [exact Hrun|]. simpl. split_and!; try done.
  - apply lookup_lt_Some in Hd. lia.
  - intros l0 x Hl0. by apply lookup_app_l_Some.
Qed.

End MergePure.

(** Two facility tables are merged against the same city table, and every
    cleaned city of the second occurs in the first.  If the call on the
    first returns an enriched table, so does the call on the second, when
    it is not empty and its city column holds a [str] in some row (a column
    of object dtype, for the [.str] accessor of line 208); and rows with
    the same cleaned city have the same region in both: the region of a row
    depends on its own city and on the city table only, not on the other
    rows. *)
Theorem merge_rows_independent `{Unicode} s1 s2 df1 cdf1 col1 df2 cdf2 col2
    d1 d2 c raw1 raw2 l1 s1' d1' b1 :
  heap s1 !! df1 = Some d1 → heap s1 !! cdf1 = Some c →
  heap s2 !! df2 = Some d2 → heap s2 !! cdf2 = Some c →
  lookup_col col1 d1 = Some raw1 → lookup_col col2 d2 = Some raw2 →
  empty d2 = false → has_str raw2 →
  (∀ x, x ∈ clean raw2 → x ∈ clean raw1) →
  merge_with_bundesland df1 cdf1 col1 s1 = Some (Ret l1, s1') →
  l1 ≠ df1 → heap s1' !! l1 = Some d1' →
  lookup_col "bundesland" d1' = Some b1 →
  ∃ l2 s2' d2' b2,
    merge_with_bundesland df2 cdf2 col2 s2 = Some (Ret l2, s2')
    ∧ l2 ≠ df2 ∧ heap s2' !! l2 = Some d2'
    ∧ lookup_col "bundesland" d2' = Some b2
    ∧ ∀ i j x, clean raw1 !! i = Some x → clean raw2 !! j = Some x →
               b2 !! j = b1 !! i.
Proof.
  intros Hd1 Hc1 Hd2 Hc2 Hraw1 Hraw2 Hne2 _ Hsub Hrun1 Hl1 Hd1' Hb1.
  destruct (merge_enriched_inv s1 df1 cdf1 col1 d1 c l1 s1' d1' Hd1 Hc1 Hrun1 Hl1 Hd1')
    as (raw & stadt & values & b' & lg1 & _ & Hec & Hr & Hstadt & Hvalues
        & Hphase1 & -> & _ & _ & _).
  rewrite Hraw1 in Hr. injection Hr as <-.
  rewrite enriched_bundesland in Hb1. injection Hb1 as <-.
  set (mapping := dict_zip (clean stadt) values) in *.
  destruct (fuzzy_phase_completes mapping (unique (clean stadt)) (clean raw2))
    as (b2 & lg2 & Hphase2).
  { intros city Hin. apply Hsub in Hin.
    apply list_elem_of_lookup in Hin as [i Hi].
    destruct (fuzzy_phase_rowwise _ _ _ _ _ Hphase1 i city Hi) as (v & _ & Hv).
    by exists v. }
  destruct (merge_enriches_of_phase s2 df2 cdf2 col2 d2 c raw2 stadt values b2 lg2)
    as (l2 & s2' & Hrun2 & Hl2 & _ & Hd2' & _); try done.
  exists l2, s2', (enriched_frame d2 col2 (clean raw2) b2), b2.
  split_and!; try done; [apply enriched_bundesland|].
  intros i j x Hi Hj.
  destruct (fuzzy_phase_rowwise _ _ _ _ _ Hphase1 i x Hi) as (v1 & -> & Hv1).
  destruct (fuzzy_phase_rowwise _ _ _ _ _ Hphase2 j x Hj) as (v2 & -> & Hv2).
  congruence.
Qed.

Lemma merge_rows_independent_witness :
  ∃ l2 s2' d2' b2,
    merge_with_bundesland 0 1 "stadt"
      (store_of [("stadt", [None; Some (py " BERLIN")])] cities)
    = Some (Ret l2, s2')
    ∧ l2 ≠ 0 ∧ heap s2' !! l2 = Some d2'
    ∧ lookup_col "bundesland" d2' = Some b2
    ∧ ∀ i j x,
        clean [Some (py "berlin "); Some (py "Muenchen"); None] !! i = Some x →
        clean [None; Some (py " BERLIN")] !! j = Some x →
        b2 !! j = [Some Berlin; Some Bayern; None] !! i.
Proof.
  eapply (merge_rows_independent (store_of parks cities)
            (store_of [("stadt", [None; Some (py " BERLIN")])] cities)
            0 1 "city" 0 1 "stadt" parks
            [("stadt", [None; Some (py " BERLIN")])] cities
            [Some (py "berlin "); Some (py "Muenchen"); None]
            [None; Some (py " BERLIN")]);
    try reflexivity; try done.
  - apply Exists_cons_tl, Exists_cons_hd. by eexists.
  - apply Forall_forall. vm_compute. repeat constructor.
Defined.

(** ** The shape of the enriched table (lines 204-216, 243) *)

Lemma length_fuzzy_phase_result `{Unicode} mapping (cands raw : Series) b' lg :
  fuzzy_phase mapping cands (clean raw) (series_map mapping (clean raw))
  = (Ret b', lg) →
  length b' = length raw.
Proof.
  intros [Hlen _]%fuzzy_phase_lookup.
  rewrite Hlen. unfold series_map. by rewrite length_fmap, length_clean.
Qed.

Lemma enriched_well_formed `{Unicode} (d : DataFrame) col (cleaned b' : Series) :
  well_formed d → length cleaned = nrows d → length b' = nrows d →
  well_formed (enriched_frame d col cleaned b').
Proof.
  intros Hwf Hc Hb. unfold well_formed.
  rewrite enriched_nrows by done.
  unfold enriched_frame, remove_col. apply Forall_forall.
  intros p [_ Hp]%list_elem_of_filter. revert p Hp. apply Forall_forall.
  by do 2 (apply columns_set_col; [|done]).
Qed.

Lemma enriched_not_empty `{Unicode} (d : DataFrame) col (cleaned b' : Series) :
  well_formed d → empty d = false →
  length cleaned = nrows d → length b' = nrows d →
  empty (enriched_frame d col cleaned b') = false.
Proof.
  intros Hwf Hne Hc Hb.
  pose proof (enriched_nrows d col cleaned b' Hwf Hc Hb) as Hrows.
  pose proof (enriched_bundesland d col cleaned b') as Hcol.
  unfold empty in *. destruct d as [|p r]; [done|]. rewrite Hrows.
  by destruct (enriched_frame (p :: r) col cleaned b').
Qed.

(** An enriched table has exactly the rows of the table that was given: it
    is rectangular when the input is, has the same number of rows, and its
    [bundesland] column has one cell for each of them.  No facility is
    dropped or duplicated by the merge. *)
Theorem merge_keeps_rows `{Unicode} s df cdf col d c l s' d' :
  heap s !! df = Some d → heap s !! cdf = Some c →
  well_formed d →
  merge_with_bundesland df cdf col s = Some (Ret l, s') →
  l ≠ df → heap s' !! l = Some d' →
  well_formed d' ∧ nrows d' = nrows d
  ∧ ∃ bundesland,
      lookup_col "bundesland" d' = Some bundesland
      ∧ length bundesland = nrows d.
Proof.
  intros Hd Hc Hwf Hrun Hl Hd'.
  destruct (merge_enriched_inv s df cdf col d c l s' d' Hd Hc Hrun Hl Hd')
    as (raw & stadt & values & b' & lg1 & _ & _ & Hraw & _ & _
        & Hphase & -> & _).
  assert (Hlen : length b' = nrows d).
  { rewrite (length_fuzzy_phase_result _ _ _ _ _ Hphase).
    by eapply well_formed_lookup. }
  assert (Hcl : length (clean raw) = nrows d).
  { rewrite length_clean. by eapply well_formed_lookup. }
  split_and!.
  - by apply enriched_well_formed.
  - by apply enriched_nrows.
  - exists b'. split; [apply enriched_bundesland|done].
Qed.

Lemma merge_keeps_rows_witness :
  ∃ d',
    well_formed d' ∧ nrows d' = nrows parks
    ∧ ∃ bundesland,
        lookup_col "bundesland" d' = Some bundesland
        ∧ length bundesland = nrows parks.
Proof.
  eexists.
  eapply (merge_keeps_rows (store_of parks cities) 0 1 "city" parks cities);
    [reflexivity|reflexivity|apply well_formed_parks|reflexivity|done
    |reflexivity].
Defined.

(** ** Merging a second time (lines 204-243) *)

Lemma enriched_frame_again `{Unicode} (x : DataFrame) col (cleaned b : Series) :
  lookup_col (col +:+ "_clean") x = None →
  lookup_col "bundesland" x = Some b →
  enriched_frame x col cleaned b = x.
Proof.
  intros Hc Hb. unfold enriched_frame.
  rewrite (set_col_absent (col +:+ "_clean")) by done.
  assert (Hset : ∀ (y : DataFrame) t,
            lookup_col "bundesland" y = Some b →
            set_col "bundesland" b (y ++ t) = y ++ t).
  { clear. induction y as [|[n c] r IH]; intros t; simpl; [done|].
    case_decide; [by intros [= ->]|]. intros Hr. by rewrite IH. }
  rewrite Hset by done.
  unfold remove_col. rewrite filter_app.
  fold (remove_col (col +:+ "_clean") x). rewrite remove_col_absent by done.
  rewrite filter_cons_False by (simpl; auto). by rewrite app_nil_r.
Qed.

(** Merging is idempotent.  When a call has returned an enriched table, a
    second call on that table, with the same city table and the same city
    column (other than [bundesland] itself), returns a new object that
    holds the very same table: same columns in the same order, same
    regions. *)
Theorem merge_again_changes_nothing `{Unicode} s df cdf col d c l s' d' :
  heap s !! df = Some d → heap s !! cdf = Some c →
  well_formed d → col ≠ "bundesland" →
  merge_with_bundesland df cdf col s = Some (Ret l, s') →
  l ≠ df → heap s' !! l = Some d' →
  ∃ l2 s2,
    merge_with_bundesland l cdf col s' = Some (Ret l2, s2)
    ∧ l2 ≠ l ∧ heap s2 !! l2 = Some d'.
Proof.
  intros Hd Hc Hwf Hcol Hrun Hl Hd'.
  destruct (merge_enriched_inv s df cdf col d c l s' d' Hd Hc Hrun Hl Hd')
    as (raw & stadt & values & b' & lg1 & Hne & Hnec & Hraw & Hstadt & Hvalues
        & Hphase & -> & _ & _ & Hkeep).
  set (d' := enriched_frame d col (clean raw) b') in *.
  assert (Hne' : empty d' = false).
  { apply enriched_not_empty; [done|done| |].
    - rewrite length_clean. by eapply well_formed_lookup.
    - rewrite (length_fuzzy_phase_result _ _ _ _ _ Hphase).
      by eapply well_formed_lookup. }
  destruct (merge_enriches_of_phase s' l cdf col d' c raw stadt values b' lg1)
    as (l2 & s2 & Hrun2 & Hl2 & _ & Hd2 & _); try done.
  { by apply Hkeep. }
  { unfold d'. rewrite enriched_other_columns;
      [done|done|apply clean_column_fresh]. }
  exists l2, s2. split_and!; [done|done|].
  rewrite Hd2. f_equal. apply enriched_frame_again.
  - apply enriched_no_clean_column.
  - apply enriched_bundesland.
Qed.

Lemma merge_again_changes_nothing_witness :
  ∃ l s' d',
    merge_with_bundesland 0 1 "city" (store_of parks cities) = Some (Ret l, s')
    ∧ heap s' !! l = Some d'
    ∧ ∃ l2 s2,
        merge_with_bundesland l 1 "city" s' = Some (Ret l2, s2)
        ∧ l2 ≠ l ∧ heap s2 !! l2 = Some d'.
Proof.
  eexists _, _, _. split; [reflexivity|]. split; [reflexivity|].
  apply (merge_again_changes_nothing (store_of parks cities) 0 1 "city"
           parks cities);
    [reflexivity|reflexivity|apply well_formed_parks|done|reflexivity|done
    |reflexivity].
Defined.

(** ** What the run reports (lines 245-253) *)

Lemma mask_sum_notna (b : Series) :
  mask_sum (notna b) = length (filter is_Some b).
Proof.
  unfold mask_sum, notna. induction b as [|[x|] r IH]; [done|..].
  - rewrite fmap_cons, filter_cons_True by by apply bool_decide_eq_true.
    rewrite filter_cons_True by done. simpl. by rewrite IH.
  - rewrite fmap_cons, filter_cons_False.
    + rewrite filter_cons_False by by intros [? ?]. done.
    + rewrite bool_decide_eq_false_2; [done|]. by intros ?.
Qed.

Lemma filter_is_Some_lt (b : Series) :
  length (filter is_Some b) < length b ↔ ∃ i, b !! i = Some None.
Proof.
  split.
  - induction b as [|[x|] r IH]; [simpl; lia| |by exists 0].
    rewrite filter_cons_True by done. simpl. intros Hlt.
    destruct IH as [i Hi]; [lia|]. by exists (S i).
  - intros [i Hi]. rewrite <- mask_sum_notna. by eapply mask_sum_notna_lt.
Qed.

Lemma elem_of_mask_select_isna (b : Series) : ∀ (s : Series) x,
  x ∈ mask_select (isna b) s → ∃ i, s !! i = Some x ∧ b !! i = Some None.
Proof.
  induction b as [|c r IH]; intros s x; simpl; [by intros ?%not_elem_of_nil|].
  destruct s as [|y s]; [by intros ?%not_elem_of_nil|].
  destruct c as [g|]; simpl.
  - intros Hx. destruct (IH s x Hx) as (i & ? & ?). by exists (S i).
  - intros [->|Hx]%elem_of_cons; [by exists 0|].
    destruct (IH s x Hx) as (i & ? & ?). by exists (S i).
Qed.

Lemma mask_select_isna_elem (b : Series) : ∀ (s : Series) i x,
  s !! i = Some x → b !! i = Some None → x ∈ mask_select (isna b) s.
Proof.
  induction b as [|c r IH]; intros s i x Hs Hb; [done|].
  destruct s as [|y s]; [done|].
  destruct i as [|i]; simpl in *.
  - injection Hs as ->. injection Hb as ->. simpl. by left.
  - destruct (bool_decide (c = None)); [right|]; by eapply IH.
Qed.

Lemma NoDup_unique_from (s : Series) : ∀ seen, NoDup (unique_from seen s).
Proof.
  induction s as [|c r IH]; intros seen; simpl; [constructor|].
  case_decide; [done|]. constructor; [|done].
  rewrite elem_of_unique_from. intros [_ Hc]. apply Hc. by left.
Qed.

(** The last lines of the log of a run that returned an enriched table:
    the number of rows with a region out of the number of rows; and, unless
    every row has one, a sample of at most five distinct values, each from
    a row that was left without a region.  The values are those of the city
    column as they were given (not cleaned); but when the city column is
    [bundesland] itself, line 252 reads them from the column the merge has
    overwritten, and the sample holds the missing value only. *)
Theorem merge_reports_counts `{Unicode} s df cdf col d c raw l s' d' bundesland :
  heap s !! df = Some d → heap s !! cdf = Some c →
  well_formed d →
  lookup_col col d = Some raw →
  merge_with_bundesland df cdf col s = Some (Ret l, s') →
  l ≠ df → heap s' !! l = Some d' →
  lookup_col "bundesland" d' = Some bundesland →
  ∃ earlier tail,
    log s' = log s ++ earlier
             ++ Info_merge_results (length (filter is_Some bundesland))
                  (length bundesland) :: tail
    ∧ length bundesland = nrows d
    ∧ ((Forall is_Some bundesland ∧ tail = [])
       ∨ ∃ sample,
           tail = [Warning_sample_unmatched sample]
           ∧ sample ≠ [] ∧ length sample ≤ 5 ∧ NoDup sample
           ∧ ∀ x, x ∈ sample →
               ∃ i, bundesland !! i = Some None
                    ∧ if decide (col = "bundesland") then x = None
                      else raw !! i = Some x).
Proof.
  intros Hd Hc Hwf Hraw Hrun Hl Hd' Hb.
  destruct (merge_enriched_inv s df cdf col d c l s' d' Hd Hc Hrun Hl Hd')
    as (raw0 & stadt & values & b' & lg1 & _ & _ & Hraw0 & _ & _
        & Hphase & -> & Hlog & _).
  rewrite Hraw in Hraw0. injection Hraw0 as <-.
  rewrite enriched_bundesland in Hb. injection Hb as <-.
  assert (Hlen : length b' = length raw)
    by apply (length_fuzzy_phase_result _ _ _ _ _ Hphase).
  assert (Hrows : length raw = nrows d) by by eapply well_formed_lookup.
  rewrite enriched_nrows in Hlog;
    [|done|by rewrite length_clean|by rewrite Hlen].
  unfold report in Hlog. rewrite mask_sum_notna, <- Hrows, <- Hlen in Hlog.
  eexists lg1, _. split; [exact Hlog|]. split; [lia|].
  case_decide as Hlt.
  - right. eexists. split; [done|].
    apply filter_is_Some_lt in Hlt as [i Hi].
    set (cities := if decide (col = "bundesland") then b' else raw).
    destruct (lookup_lt_is_Some_2 cities i) as [x Hx].
    { unfold cities. case_decide; [|rewrite <- Hlen]; by eapply lookup_lt_Some. }
    split_and!.
    + intros Hnil.
      assert (Hin : x ∈ unique (mask_select (isna b') cities)).
      { apply elem_of_unique. by eapply mask_select_isna_elem. }
      destruct (unique (mask_select (isna b') cities)); [|done].
      by apply not_elem_of_nil in Hin.
    + rewrite length_take. lia.
    + eapply sublist_NoDup; [|apply sublist_take]. apply NoDup_unique_from.
    + intros y Hy. apply (subseteq_take 5) in Hy.
      apply (proj1 (elem_of_unique _ _)) in Hy.
      apply elem_of_mask_select_isna in Hy as (k & Hk & Hbk).
      exists k. split; [done|]. unfold cities in Hk.
      case_decide; [congruence|done].
  - left. split; [|done]. apply Forall_forall. intros [x|] Hx; [done|].
    destruct Hlt. apply filter_is_Some_lt. by apply list_elem_of_lookup.
Qed.

Lemma merge_reports_counts_witness :
  ∃ s' earlier tail,
    log s' = [] ++ earlier
             ++ Info_merge_results
                  (length (filter is_Some [Some Berlin; Some Bayern; None]))
                  (length [Some Berlin; Some Bayern; @None pystr]) :: tail
    ∧ length [Some Berlin; Some Bayern; @None pystr] = nrows parks
    ∧ ((Forall is_Some [Some Berlin; Some Bayern; None] ∧ tail = [])
       ∨ ∃ sample,
           tail = [Warning_sample_unmatched sample]
           ∧ sample ≠ [] ∧ length sample ≤ 5 ∧ NoDup sample
           ∧ ∀ x, x ∈ sample →
               ∃ i, [Some Berlin; Some Bayern; None] !! i = Some None
                    ∧ if decide ("city" = "bundesland") then x = None
                      else [Some (py "berlin "); Some (py "Muenchen"); None] !! i
                           = Some x).
Proof.
  eexists.
  eapply (merge_reports_counts (store_of parks cities) 0 1 "city" parks cities);
    [reflexivity|reflexivity|apply well_formed_parks|reflexivity
    |reflexivity|done|reflexivity|reflexivity].
Defined.

(** The sample when the city column is [bundesland] itself: the missing
    value, not the city that was given. *)
Example sample_of_overwritten_column :
  ∃ s',
    merge_with_bundesland 0 1 "bundesland"
      (store_of [("bundesland", [Some (py "Atlantis")])] cities)
    = Some (Ret 4, s')
    ∧ log s' = [Info_fuzzy_attempt 1; Info_merge_results 0 1;
                Warning_sample_unmatched [None]].
Proof. eexists. split; by vm_compute. Qed.

(** ** Blanks around a city name (line 205) *)

Section Strip.
Context `{Unicode}.

Lemma lstrip_blanks (ws y : pystr) :
  Forall (λ ch, isspace ch = true) ws → lstrip (ws ++ y) = lstrip y.
Proof.
  induction 1 as [|ch ws Hch _ IH]; [done|]. simpl. by rewrite Hch.
Qed.

Lemma lstrip_app (x t : pystr) : lstrip x ≠ [] → lstrip (x ++ t) = lstrip x ++ t.
Proof.
  induction x as [|ch x IH]; [done|]. simpl.
  destruct (isspace ch); [apply IH|done].
Qed.

Lemma lstrip_nil (x : pystr) :
  lstrip x = [] → Forall (λ ch, isspace ch = true) x.
Proof.
  induction x as [|ch x IH]; [by constructor|]. simpl.
  destruct (isspace ch) eqn:Hch; [|done]. intros Hx. constructor; auto.
Qed.

Lemma rstrip_blanks (y ws : pystr) :
  Forall (λ ch, isspace ch = true) ws → rstrip (y ++ ws) = rstrip y.
Proof.
  intros Hws. unfold rstrip. rewrite reverse_app, lstrip_blanks; [done|].
  by apply Forall_reverse.
Qed.

Lemma strip_blanks (ws x ws' : pystr) :
  Forall (λ ch, isspace ch = true) ws → Forall (λ ch, isspace ch = true) ws' →
  strip (ws ++ x ++ ws') = strip x.
Proof.
  intros Hws Hws'. unfold strip. rewrite lstrip_blanks by done.
  destruct (lstrip x) as [|ch r] eqn:Hx.
  - apply lstrip_nil in Hx.
    rewrite <- (app_nil_r (x ++ ws')), lstrip_blanks; [done|].
    by apply Forall_app.
  - rewrite lstrip_app by by rewrite Hx. rewrite Hx. by apply rstrip_blanks.
Qed.

End Strip.

(** Whitespace around a city name does not matter: in an enriched table, two
    rows whose city values differ only by whitespace characters before and
    after the name have the same region (or both have none). *)
Theorem surrounding_blanks_are_ignored `{Unicode} s df cdf col d c raw l s' d'
    bundesland i j (x ws ws' : pystr) :
  heap s !! df = Some d → heap s !! cdf = Some c →
  lookup_col col d = Some raw →
  merge_with_bundesland df cdf col s = Some (Ret l, s') →
  l ≠ df → heap s' !! l = Some d' →
  lookup_col "bundesland" d' = Some bundesland →
  raw !! i = Some (Some x) →
  raw !! j = Some (Some (ws ++ x ++ ws')) →
  Forall (λ ch, isspace ch = true) ws → Forall (λ ch, isspace ch = true) ws' →
  bundesland !! j = bundesland !! i.
Proof.
  intros Hd Hc Hraw Hrun Hl Hd' Hb Hi Hj Hws Hws'.
  destruct (merge_enriched_inv s df cdf col d c l s' d' Hd Hc Hrun Hl Hd')
    as (raw0 & stadt & values & b' & lg1 & _ & _ & Hraw0 & _ & _
        & Hphase & -> & _).
  rewrite Hraw in Hraw0. injection Hraw0 as <-.
  rewrite enriched_bundesland in Hb. injection Hb as <-.
  assert (Hci : clean raw !! i = Some (Some (normalize x))).
  { by rewrite lookup_clean, Hi. }
  assert (Hcj : clean raw !! j = Some (Some (normalize x))).
  { rewrite lookup_clean, Hj. simpl. unfold normalize.
    by rewrite strip_blanks. }
  destruct (fuzzy_phase_rowwise _ _ _ _ _ Hphase i _ Hci) as (v1 & -> & Hv1).
  destruct (fuzzy_phase_rowwise _ _ _ _ _ Hphase j _ Hcj) as (v2 & -> & Hv2).
  congruence.
Qed.

Lemma surrounding_blanks_are_ignored_witness :
  ∃ l s' d' bundesland,
    merge_with_bundesland 0 1 "city"
      (store_of [("city", [Some (py "Berlin"); Some (py "  Berlin ")])] cities)
    = Some (Ret l, s')
    ∧ heap s' !! l = Some d'
    ∧ lookup_col "bundesland" d' = Some bundesland
    ∧ bundesland !! 1 = bundesland !! 0.
Proof.
  eexists _, _, _, _. do 3 (split; [reflexivity|]).
  eapply (surrounding_blanks_are_ignored
           (store_of [("city", [Some (py "Berlin"); Some (py "  Berlin ")])] cities)
           0 1 "city"
           [("city", [Some (py "Berlin"); Some (py "  Berlin ")])] cities
           [Some (py "Berlin"); Some (py "  Berlin ")] 4 _ _ _ 0 1
           (py "Berlin") (py "  ") (py " "));
    [reflexivity|reflexivity|reflexivity|reflexivity|done|reflexivity
    |reflexivity|reflexivity|reflexivity|by repeat constructor
    |by repeat constructor].
Defined.

(** * The filter of the federal-state maps ([main.py], lines 168-180) *)

Lemma elem_of_columns name (d : DataFrame) :
  name ∈ columns d ↔ is_Some (lookup_col name d).
Proof.
  unfold columns. induction d as [|[n c] r IH]; simpl.
  - split; [by intros ?%not_elem_of_nil|by intros [? ?]].
  - rewrite elem_of_cons, IH. case_decide as Hn.
    + split; [by eexists|by left].
    + split; [by intros [?|?]|by right].
Qed.

Lemma columns_rows_where mask (d : DataFrame) :
  columns (rows_where mask d) = columns d.
Proof.
  unfold columns, rows_where. rewrite <- list_fmap_compose.
  by apply list_fmap_ext.
Qed.

Lemma columns_no_rows (d : DataFrame) : columns (no_rows d) = columns d.
Proof.
  unfold columns, no_rows. rewrite <- list_fmap_compose.
  by apply list_fmap_ext.
Qed.

Lemma lookup_rows_where mask name (d : DataFrame) :
  lookup_col name (rows_where mask d) = mask_select mask <$> lookup_col name d.
Proof.
  induction d as [|[n c] r IH]; simpl; [done|]. by case_decide.
Qed.

Lemma lookup_no_rows name (d : DataFrame) :
  lookup_col name (no_rows d) = (λ _, []) <$> lookup_col name d.
Proof.
  induction d as [|[n c] r IH]; simpl; [done|]. by case_decide.
Qed.

Lemma masked_index_from_ge mask : ∀ i j,
  j ∈ masked_index_from i mask → i ≤ j.
Proof.
  intros i j (p & -> & _)%elem_of_masked_index_from. lia.
Qed.

(** Row [k] of [s[mask]] is the row of [s] at the [k]-th label the mask
    selects. *)
Lemma lookup_mask_select mask : ∀ (s : Series) i k,
  mask_select mask s !! k
  = masked_index_from i mask !! k ≫= λ j, s !! (j - i).
Proof.
  induction mask as [|b m IH]; intros s i k; simpl; [done|].
  destruct s as [|x r].
  { destruct ((if b then _ else _) !! k); done. }
  assert (Hshift : ∀ k',
    masked_index_from (S i) m !! k' ≫= (λ j, r !! (j - S i))
    = masked_index_from (S i) m !! k' ≫= (λ j, (x :: r) !! (j - i))).
  { intros k'. destruct (masked_index_from (S i) m !! k') as [j|] eqn:Hj;
      [|done].
    apply list_elem_of_lookup_2, masked_index_from_ge in Hj. simpl.
    by replace (j - i) with (S (j - S i)) by lia. }
  destruct b.
  - destruct k as [|k]; simpl.
    + by rewrite Nat.sub_diag.
    + by rewrite (IH r (S i) k), Hshift.
  - by rewrite (IH r (S i) k), Hshift.
Qed.

Lemma masked_index_from_sorted mask : ∀ i k1 k2 j1 j2,
  masked_index_from i mask !! k1 = Some j1 →
  masked_index_from i mask !! k2 = Some j2 →
  k1 < k2 → j1 < j2.
Proof.
  induction mask as [|b m IH]; intros i k1 k2 j1 j2; simpl; [done|].
  destruct b; [|apply IH].
  destruct k1 as [|k1], k2 as [|k2]; simpl; try lia.
  - intros [= <-] Hj2 _.
    apply list_elem_of_lookup_2, masked_index_from_ge in Hj2. lia.
  - intros H1 H2 Hlt. apply (IH (S i) k1 k2); [done|done|lia].
Qed.

Lemma length_mask_select mask : ∀ (s : Series) i,
  length mask = length s →
  length (mask_select mask s) = length (masked_index_from i mask).
Proof.
  induction mask as [|b m IH]; intros [|x r] i; simpl; try done.
  intros [= Hlen]. destruct b; simpl; by rewrite (IH r (S i)).
Qed.

Lemma elem_of_masked_index_eq (b : Series) value i :
  i ∈ masked_index (eq_mask b value) ↔ b !! i = Some (Some value).
Proof.
  unfold masked_index, eq_mask. rewrite elem_of_masked_index_from. split.
  - intros (p & -> & Hp). simpl. rewrite list_lookup_fmap in Hp.
    destruct (b !! p) as [x|]; [|done]. simpl in Hp.
    injection Hp as Hp. apply bool_decide_eq_true in Hp. by subst.
  - intros Hi. exists i. split; [done|].
    rewrite list_lookup_fmap, Hi. simpl. by rewrite bool_decide_eq_true_2.
Qed.

Lemma rows_where_well_formed mask (d : DataFrame) :
  well_formed d → length mask = nrows d →
  well_formed (rows_where mask d)
  ∧ nrows (rows_where mask d) = if decide (d = []) then 0
                                else length (masked_index mask).
Proof.
  intros Hwf Hlen.
  assert (Hcols : Forall (λ p : string * Series,
                    length p.2 = length (masked_index mask))
                    (rows_where mask d)).
  { unfold rows_where. apply Forall_fmap. eapply Forall_impl; [exact Hwf|].
    intros [n c] Hc. simpl in *. apply length_mask_select. congruence. }
  assert (Hrows : nrows (rows_where mask d)
                  = if decide (d = []) then 0 else length (masked_index mask)).
  { destruct d as [|[n c] r]; [done|]. rewrite decide_False by done.
    by apply Forall_cons in Hcols as [Hc _]. }
  split; [|done]. unfold well_formed. rewrite Hrows.
  case_decide; [by subst|done].
Qed.

Section RunApp.
Context {B : Type}.
Implicit Types (h : list DataFrame) (lg : list app_entry).

Lemma app_run_say e (k : unit → App B) h lg :
  app_bind (say e) k (AppState h lg) = k tt (AppState h (lg ++ [e])).
Proof. reflexivity. Qed.

Lemma app_run_deref l d (k : DataFrame → App B) h lg :
  h !! l = Some d →
  app_bind (run_M (deref l)) k (AppState h lg) = k d (AppState h lg).
Proof.
  intros Hl. unfold app_bind, run_M, deref. simpl. rewrite Hl. simpl.
  by rewrite app_nil_r.
Qed.

Lemma app_run_getitem l name d c (k : Series → App B) h lg :
  h !! l = Some d → lookup_col name d = Some c →
  app_bind (run_M (getitem l name)) k (AppState h lg) = k c (AppState h lg).
Proof.
  intros Hl Hc. unfold app_bind, run_M, getitem, mbind, M_bind, bind, deref.
  simpl. rewrite Hl, Hc. simpl. by rewrite app_nil_r.
Qed.


Lemma app_run_getrows l mask d (k : loc → App B) h lg :
  h !! l = Some d →
  app_bind (run_M (getrows l mask)) k (AppState h lg)
  = k (length h) (AppState (h ++ [rows_where mask d]) lg).
Proof.
  intros Hl. unfold app_bind, run_M, getrows, mbind, M_bind, bind, deref, alloc.
  simpl. rewrite Hl. simpl. by rewrite app_nil_r.
Qed.

End RunApp.

Lemma app_run_iloc_none l d h lg :
  h !! l = Some d →
  run_M (iloc_none l) (AppState h lg)
  = Some (Ret (length h), AppState (h ++ [no_rows d]) lg).
Proof.
  intros Hl. unfold run_M, iloc_none, mbind, M_bind, bind, deref, alloc.
  simpl. rewrite Hl. simpl. by rewrite app_nil_r.
Qed.

Lemma app_run_copy l d h lg :
  h !! l = Some d →
  run_M (copy l) (AppState h lg)
  = Some (Ret (length h), AppState (h ++ [d]) lg).
Proof.
  intros Hl. unfold run_M, copy, mbind, M_bind, bind, deref, alloc.
  simpl. rewrite Hl. simpl. by rewrite app_nil_r.
Qed.

(** What the filter does on any stored table. *)
Lemma filter_runs s gdf name d :
  app_heap s !! gdf = Some d →
  _filter_data_by_bundesland gdf name s
  = match lookup_col "bundesland" d with
    | Some b =>
        if empty d then
          Some (Ret (length (app_heap s)),
                AppState (app_heap s ++ [no_rows d])
                  (app_log s ++ [Warning_no_bundesland_column (columns d)]))
        else
          Some (Ret (S (length (app_heap s))),
                AppState (app_heap s ++ [rows_where (eq_mask b name) d;
                                         rows_where (eq_mask b name) d])
                  (app_log s))
    | None =>
        Some (Ret (length (app_heap s)),
              AppState (app_heap s ++ [no_rows d])
                (app_log s ++ [Warning_no_bundesland_column (columns d)]))
    end.
Proof.
  intros Hd. destruct s as [h lg]. simpl in *.
  unfold _filter_data_by_bundesland, app_try, mbind, App_bind.
  rewrite (app_run_deref gdf d) by done.
  destruct (lookup_col "bundesland" d) as [b|] eqn:Hb.
  - rewrite (bool_decide_eq_true_2 ("bundesland" ∈ columns d))
      by (apply elem_of_columns; by rewrite Hb).
    simpl. rewrite orb_false_r. destruct (empty d).
    + by rewrite app_run_say, (app_run_iloc_none gdf d).
    + rewrite (app_run_getitem gdf "bundesland" d b) by done.
      rewrite (app_run_getrows gdf _ d) by done.
      rewrite (app_run_copy (length h) (rows_where (eq_mask b name) d))
        by by apply list_lookup_middle.
      rewrite <- app_assoc, length_app. simpl. by rewrite Nat.add_1_r.
  - rewrite (bool_decide_eq_false_2 ("bundesland" ∈ columns d))
      by (rewrite elem_of_columns, Hb; by intros [? ?]).
    rewrite orb_true_r.
    by rewrite app_run_say, (app_run_iloc_none gdf d).
Qed.

(** On a table that is not empty and has a [bundesland] column, the filter
    returns a new object with the same columns that holds exactly the rows
    whose region is the given name, in their order: row [k] of the result
    is row [rows !! k] of the table, and [rows] lists, in increasing order,
    the rows with that region.  Rows without a region are in no result, and
    no row is in the results of two names.  Nothing is logged and no
    stored table changes. *)
Theorem filter_selects_region s gdf name d b :
  app_heap s !! gdf = Some d →
  well_formed d → empty d = false →
  lookup_col "bundesland" d = Some b →
  ∃ l s' d' rows,
    _filter_data_by_bundesland gdf name s = Some (Ret l, s')
    ∧ length (app_heap s) ≤ l
    ∧ app_heap s' !! l = Some d'
    ∧ (∀ l0 x, app_heap s !! l0 = Some x → app_heap s' !! l0 = Some x)
    ∧ app_log s' = app_log s
    ∧ columns d' = columns d ∧ well_formed d' ∧ nrows d' = length rows
    ∧ (∀ i, i ∈ rows ↔ b !! i = Some (Some name))
    ∧ (∀ k1 k2 i1 i2,
         rows !! k1 = Some i1 → rows !! k2 = Some i2 → k1 < k2 → i1 < i2)
    ∧ ∀ n c, lookup_col n d = Some c →
        ∃ c', lookup_col n d' = Some c'
              ∧ ∀ k, c' !! k = rows !! k ≫= (c !!.).
Proof.
  intros Hd Hwf Hne Hb.
  assert (Hlen : length (eq_mask b name) = nrows d).
  { unfold eq_mask. rewrite length_fmap. by eapply well_formed_lookup. }
  destruct (rows_where_well_formed (eq_mask b name) d Hwf Hlen) as [Hwf' Hrows].
  rewrite decide_False in Hrows by (intros ->; done).
  eexists _, _, (rows_where (eq_mask b name) d), (masked_index (eq_mask b name)).
  split; [by rewrite (filter_runs s gdf name d), Hb, Hne|]. simpl.
  split_and!; try done.
  - lia.
  - rewrite (lookup_app_r _ _ (S (length (app_heap s)))) by lia.
    by replace (S (length (app_heap s)) - length (app_heap s)) with 1 by lia.
  - intros l0 x Hl0. by apply lookup_app_l_Some.
  - apply columns_rows_where.
  - intros i. apply elem_of_masked_index_eq.
  - apply masked_index_from_sorted.
  - intros n c Hc. exists (mask_select (eq_mask b name) c).
    split; [by rewrite lookup_rows_where, Hc|].
    intros k. unfold masked_index. rewrite (lookup_mask_select _ c 0 k).
    destruct (masked_index_from 0 (eq_mask b name) !! k); [|done].
    simpl. by rewrite Nat.sub_0_r.
Qed.

Lemma filter_selects_region_witness :
  ∃ l s' d' rows,
    _filter_data_by_bundesland 0 Berlin (app_store_of parks_with_regions)
    = Some (Ret l, s')
    ∧ 1 ≤ l
    ∧ app_heap s' !! l = Some d'
    ∧ (∀ l0 x, [parks_with_regions] !! l0 = Some x →
               app_heap s' !! l0 = Some x)
    ∧ app_log s' = []
    ∧ columns d' = columns parks_with_regions ∧ well_formed d'
    ∧ nrows d' = length rows
    ∧ (∀ i, i ∈ rows ↔ [Some Berlin; None; Some Berlin] !! i = Some (Some Berlin))
    ∧ (∀ k1 k2 i1 i2,
         rows !! k1 = Some i1 → rows !! k2 = Some i2 → k1 < k2 → i1 < i2)
    ∧ ∀ n c, lookup_col n parks_with_regions = Some c →
        ∃ c', lookup_col n d' = Some c'
              ∧ ∀ k, c' !! k = rows !! k ≫= (c !!.).
Proof.
  apply (filter_selects_region (app_store_of parks_with_regions) 0 Berlin
           parks_with_regions [Some Berlin; None; Some Berlin]);
    [reflexivity|repeat constructor|reflexivity|reflexivity].
Defined.

(** On an empty table, or one without a [bundesland] column, the filter
    logs a warning with the column names and returns a new object with the
    same columns and no rows; it raises nothing and changes no stored
    table. *)
Theorem filter_without_regions s gdf name d :
  app_heap s !! gdf = Some d →
  empty d = true ∨ lookup_col "bundesland" d = None →
  ∃ l s' d',
    _filter_data_by_bundesland gdf name s = Some (Ret l, s')
    ∧ length (app_heap s) ≤ l
    ∧ app_heap s' !! l = Some d'
    ∧ (∀ l0 x, app_heap s !! l0 = Some x → app_heap s' !! l0 = Some x)
    ∧ app_log s' = app_log s ++ [Warning_no_bundesland_column (columns d)]
    ∧ columns d' = columns d
    ∧ nrows d' = 0 ∧ Forall (λ p, p.2 = []) d'.
Proof.
  intros Hd Hcase.
  assert (Hrun : _filter_data_by_bundesland gdf name s
    = Some (Ret (length (app_heap s)),
            AppState (app_heap s ++ [no_rows d])
              (app_log s ++ [Warning_no_bundesland_column (columns d)]))).
  { rewrite (filter_runs s gdf name d) by done.
    destruct (lookup_col "bundesland" d); [|done].
    destruct Hcase as [->|?]; done. }
  eexists _, _, (no_rows d). split; [exact Hrun|]. simpl. split_and!; try done.
  - by apply list_lookup_middle.
  - intros l0 x Hl0. by apply lookup_app_l_Some.
  - apply columns_no_rows.
  - by destruct d as [|[n c] r].
  - unfold no_rows. by apply Forall_fmap, Forall_true.
Qed.

Lemma filter_without_regions_witness :
  ∃ l s' d',
    _filter_data_by_bundesland 0 Berlin (app_store_of parks) = Some (Ret l, s')
    ∧ 1 ≤ l
    ∧ app_heap s' !! l = Some d'
    ∧ (∀ l0 x, [parks] !! l0 = Some x → app_heap s' !! l0 = Some x)
    ∧ app_log s' = [] ++ [Warning_no_bundesland_column (columns parks)]
    ∧ columns d' = columns parks
    ∧ nrows d' = 0 ∧ Forall (λ p, p.2 = []) d'.
Proof.
  apply (filter_without_regions (app_store_of parks) 0 Berlin parks);
    [reflexivity|by right].
Defined.

(** ** The merge, then the filter *)

Lemma mask_select_eq_mask (b : Series) value :
  mask_select (eq_mask b value) b
  = replicate (length (filter (λ x, x = Some value) b)) (Some value).
Proof.
  unfold eq_mask. induction b as [|x r IH]; [done|].
  rewrite fmap_cons. cbn [mask_select].
  destruct (decide (x = Some value)) as [->|Hne].
  - rewrite bool_decide_eq_true_2 by done. rewrite filter_cons_True by done.
    simpl. by rewrite IH.
  - rewrite bool_decide_eq_false_2 by done. by rewrite filter_cons_False.
Qed.

(** The federal-state map of a table that went through the merge.  If the
    merge fell back to the table it was given (a table was empty, or the
    [try] body raised, as for a missing city column), a table without
    regions yields no row for any state, and a warning.  Otherwise the
    filter warns of nothing and returns, for each name, as many rows as the
    merge gave that region, each with that region. *)
Theorem maps_after_merge `{Unicode} s df cdf col d c name :
  app_heap s !! df = Some d → app_heap s !! cdf = Some c →
  well_formed d → lookup_col "bundesland" d = None →
  ∃ l s1 l2 s2 d2,
    run_M (merge_with_bundesland df cdf col) s = Some (Ret l, s1)
    ∧ _filter_data_by_bundesland l name s1 = Some (Ret l2, s2)
    ∧ app_heap s2 !! l2 = Some d2
    ∧ ((l = df ∧ nrows d2 = 0
        ∧ app_log s2
          = app_log s1 ++ [Warning_no_bundesland_column (columns d)])
       ∨ (l ≠ df ∧ app_log s2 = app_log s1
          ∧ ∃ d1 b,
              app_heap s1 !! l = Some d1
              ∧ lookup_col "bundesland" d1 = Some b
              ∧ nrows d2 = length (filter (λ x, x = Some name) b)
              ∧ lookup_col "bundesland" d2
                = Some (replicate (nrows d2) (Some name)))).
Proof.
  intros Hd Hc Hwf Hnone. destruct s as [h lg]. simpl in *.
  destruct (merge_runs (State h []) df cdf col d c Hd Hc)
    as (l & garbage & Hrun & Hres).
  simpl in Hrun, Hres.
  assert (Hfallback : l = df →
    ∃ l2 s2 d2,
      _filter_data_by_bundesland l name
        (AppState (h ++ garbage)
           (lg ++ (Merge_line <$> (merge_pure d c col).2
                                  ++ handler_log (merge_pure d c col).1)))
      = Some (Ret l2, s2)
      ∧ app_heap s2 !! l2 = Some d2 ∧ nrows d2 = 0
      ∧ app_log s2
        = (lg ++ (Merge_line <$> (merge_pure d c col).2
                                 ++ handler_log (merge_pure d c col).1))
          ++ [Warning_no_bundesland_column (columns d)]).
  { intros ->. eexists _, _, (no_rows d).
    rewrite (filter_runs _ df name d) by by apply lookup_app_l_Some.
    rewrite Hnone. simpl. split_and!; [done| |by destruct d as [|[??]?]|done].
    by apply list_lookup_middle. }
  destruct (merge_pure d c col) as [[|d1|e] lg'] eqn:Hpure; simpl in *.
  - destruct Hres as [-> ->].
    destruct Hfallback as (l2 & s2 & d2 & Hf & Hd2 & Hrows & Hlog); [done|].
    exists df, (AppState (h ++ []) (lg ++ (Merge_line <$> lg' ++ []))), l2, s2, d2.
    split_and!; try done.
    + unfold run_M. simpl. by rewrite Hrun.
    + by left.
  - destruct Hres as [Hl Hd1].
    destruct (merge_pure_nonempty _ _ _ _ _ Hpure) as [Hne _].
    apply merge_pure_Enriched in Hpure
      as (raw & stadt & values & b' & lg1 & Hraw & _ & _ & Hphase & -> & _).
    assert (Hlen : length b' = nrows d).
    { rewrite (length_fuzzy_phase_result _ _ _ _ _ Hphase).
      by eapply well_formed_lookup. }
    assert (Hcl : length (clean raw) = nrows d).
    { rewrite length_clean. by eapply well_formed_lookup. }
    set (d1 := enriched_frame d col (clean raw) b') in *.
    assert (Hb1 : lookup_col "bundesland" d1 = Some b')
      by apply enriched_bundesland.
    assert (Hne1 : empty d1 = false) by by apply enriched_not_empty.
    assert (Hwf1 : well_formed d1) by by apply enriched_well_formed.
    assert (Hmask : length (eq_mask b' name) = nrows d1).
    { unfold eq_mask. rewrite length_fmap. by eapply well_formed_lookup. }
    destruct (rows_where_well_formed (eq_mask b' name) d1 Hwf1 Hmask)
      as [_ Hrows].
    rewrite decide_False in Hrows by (intros Hnil; by rewrite Hnil in Hne1).
    eexists l, _, _, _, (rows_where (eq_mask b' name) d1).
    split_and!.
    + unfold run_M. simpl. by rewrite Hrun.
    + rewrite (filter_runs _ l name d1) by done.
      by rewrite Hb1, Hne1.
    + simpl. rewrite (lookup_app_r _ _ (S _)) by lia.
      by replace (S (length (h ++ garbage)) - length (h ++ garbage)) with 1
        by lia.
    + right. split; [apply lookup_lt_Some in Hd; lia|]. split; [done|].
      exists d1, b'. split_and!; [done|done| |].
      * rewrite Hrows. unfold masked_index.
        rewrite <- (length_mask_select _ b' 0)
          by (unfold eq_mask; by rewrite length_fmap).
        by rewrite mask_select_eq_mask, length_replicate.
      * rewrite lookup_rows_where, Hb1. simpl. f_equal.
        rewrite mask_select_eq_mask. f_equal.
        rewrite Hrows. unfold masked_index.
        rewrite <- (length_mask_select _ b' 0)
          by (unfold eq_mask; by rewrite length_fmap).
        by rewrite mask_select_eq_mask, length_replicate.
  - subst l.
    destruct Hfallback as (l2 & s2 & d2 & Hf & Hd2 & Hrows & Hlog); [done|].
    eexists df, _, l2, s2, d2.
    split_and!; [|exact Hf|done|by left].
    unfold run_M. simpl. by rewrite Hrun.
Qed.

Lemma maps_after_merge_witness :
  ∃ l s1 l2 s2 d2,
    run_M (merge_with_bundesland 0 1 "city") (AppState [parks; cities] [])
    = Some (Ret l, s1)
    ∧ _filter_data_by_bundesland l Berlin s1 = Some (Ret l2, s2)
    ∧ app_heap s2 !! l2 = Some d2
    ∧ ((l = 0 ∧ nrows d2 = 0
        ∧ app_log s2
          = app_log s1 ++ [Warning_no_bundesland_column (columns parks)])
       ∨ (l ≠ 0 ∧ app_log s2 = app_log s1
          ∧ ∃ d1 b,
              app_heap s1 !! l = Some d1
              ∧ lookup_col "bundesland" d1 = Some b
              ∧ nrows d2 = length (filter (λ x, x = Some Berlin) b)
              ∧ lookup_col "bundesland" d2
                = Some (replicate (nrows d2) (Some Berlin)))).
Proof.
  apply (maps_after_merge (AppState [parks; cities] []) 0 1 "city"
           parks cities Berlin);
    [reflexivity|reflexivity|apply well_formed_parks|reflexivity].
Defined.

(** * The loaders ([data_loader.py], lines 102-116 and 262-341) *)

Lemma first_column_Some candidates cols col :
  first_column candidates cols = Some col →
  ∃ earlier later,
    candidates = earlier ++ col :: later
    ∧ col ∈ cols ∧ ∀ x, x ∈ earlier → x ∉ cols.
Proof.
  induction candidates as [|x rest IH]; simpl; [done|].
  destruct (bool_decide (x ∈ cols)) eqn:Hx.
  - intros [= ->]. apply bool_decide_eq_true in Hx.
    exists [], rest. split_and!; [done|done|]. by intros ? ?%not_elem_of_nil.
  - intros (earlier & later & -> & Hcol & Hearlier)%IH.
    apply bool_decide_eq_false in Hx.
    exists (x :: earlier), later. split_and!; [done|done|].
    intros y [->|Hy]%elem_of_cons; auto.
Qed.

Lemma first_column_None candidates cols :
  first_column candidates cols = None ↔ ∀ x, x ∈ candidates → x ∉ cols.
Proof.
  induction candidates as [|x rest IH]; simpl.
  { split; [by intros _ ? ?%not_elem_of_nil|done]. }
  destruct (bool_decide (x ∈ cols)) eqn:Hx.
  - apply bool_decide_eq_true in Hx. split; [done|].
    intros Hall. destruct (Hall x); [by left|done].
  - apply bool_decide_eq_false in Hx. rewrite IH. split.
    + intros Hall y [->|Hy]%elem_of_cons; auto.
    + intros Hall y Hy. apply Hall. by right.
Qed.

(** The method, run by a caller. *)
Lemma app_run_merge `{Unicode} h lg df cdf col d c :
  h !! df = Some d → h !! cdf = Some c →
  ∃ l garbage,
    (∀ B (k : loc → App B),
       app_bind (run_M (merge_with_bundesland df cdf col)) k (AppState h lg)
       = k l (AppState (h ++ garbage)
                (lg ++ (Merge_line <$> (merge_pure d c col).2
                                       ++ handler_log (merge_pure d c col).1))))
    ∧ match (merge_pure d c col).1 with
      | Enriched d' => l ≠ df ∧ (h ++ garbage) !! l = Some d'
      | _ => l = df
      end.
Proof.
  intros Hd Hc.
  destruct (merge_runs (State h []) df cdf col d c Hd Hc)
    as (l & garbage & Hrun & Hres).
  simpl in Hrun, Hres. exists l, garbage. split.
  - intros B k. unfold app_bind, run_M. simpl. by rewrite Hrun.
  - destruct (merge_pure d c col).1; [by destruct Hres| |done].
    destruct Hres as [Hlen Hl]. split; [|done].
    apply lookup_lt_Some in Hd. lia.
Qed.

Section AddBundesland.
Context `{Unicode}.

Lemma add_bundesland_no_column s what p g cdf d c :
  app_heap s !! p = Some d → app_heap s !! cdf = Some c →
  empty c = true ∨ first_column possible_city_columns (columns d) = None →
  add_bundesland what p g cdf s
  = Some (Ret (p, g),
          AppState (app_heap s)
            (app_log s ++
             if empty c then [Warning_cities_empty]
             else [Info_adding_bundesland what;
                   Warning_no_city_column what (columns d)])).
Proof.
  intros Hd Hc Hcase. destruct s as [h lg]. cbn [app_heap app_log] in *.
  unfold add_bundesland, mbind, App_bind.
  rewrite (app_run_deref cdf c) by done.
  destruct (empty c) eqn:Hec; cbn [negb].
  { by rewrite app_run_say. }
  destruct Hcase as [?|Hnone]; [done|].
  rewrite app_run_say, (app_run_deref p d) by done.
  rewrite Hnone, app_run_say. by rewrite <- app_assoc.
Qed.

Lemma add_bundesland_runs s what p g cdf d gd c col :
  app_heap s !! p = Some d → app_heap s !! g = Some gd →
  app_heap s !! cdf = Some c →
  empty c = false →
  first_column possible_city_columns (columns d) = Some col →
  ∃ p' g' s',
    add_bundesland what p g cdf s = Some (Ret (p', g'), s')
    ∧ (∀ l0 x, app_heap s !! l0 = Some x → app_heap s' !! l0 = Some x)
    ∧ match (merge_pure d c col).1 with
      | Enriched d' => p' ≠ p ∧ app_heap s' !! p' = Some d'
      | _ => p' = p
      end
    ∧ if empty gd then g' = g
      else match (merge_pure gd c col).1 with
           | Enriched gd' => g' ≠ g ∧ app_heap s' !! g' = Some gd'
           | _ => g' = g
           end.
Proof.
  intros Hd Hgd Hc Hec Hcol. destruct s as [h lg].
  cbn [app_heap app_log] in *.
  destruct (app_run_merge h (lg ++ [Info_adding_bundesland what]) p cdf col d c)
    as (p' & garbage & Hrun1 & Hres1); [done..|].
  set (lg1 := (lg ++ [Info_adding_bundesland what]) ++ _) in Hrun1.
  destruct (app_run_merge (h ++ garbage) lg1 g cdf col gd c)
    as (g' & garbage2 & Hrun2 & Hres2); [by apply lookup_app_l_Some..|].
  assert (Hstart :
    add_bundesland what p g cdf (AppState h lg)
    = app_bind (run_M (deref g))
        (λ gd0, if negb (empty gd0)
                then app_bind (run_M (merge_with_bundesland g cdf col))
                       (λ g0, mret (p', g0))
                else mret (p', g))
        (AppState (h ++ garbage) lg1)).
  { unfold add_bundesland, mbind, App_bind.
    rewrite (app_run_deref cdf c) by done. rewrite Hec. cbn [negb].
    rewrite app_run_say, (app_run_deref p d) by done.
    rewrite Hcol. by rewrite Hrun1. }
  rewrite Hstart.
  rewrite (app_run_deref g gd) by by apply lookup_app_l_Some.
  exists p'. destruct (empty gd) eqn:Hegd; simpl.
  - eexists g, _. split_and!; try done.
    intros l0 x Hl0. simpl. by apply lookup_app_l_Some.
  - rewrite Hrun2. eexists g', _. split_and!; try done.
    + intros l0 x Hl0. simpl. by do 2 apply lookup_app_l_Some.
    + simpl. destruct (merge_pure d c col).1; [done| |done].
      destruct Hres1 as [? Hl]. split; [done|]. by apply lookup_app_l_Some.
Qed.

(** Without a city table that has rows, or without any of the six
    candidate columns in the facility table, the tables are returned as
    they are, the very objects that were given, and a warning says which
    of the two it was. *)
Theorem add_bundesland_falls_back s what p g cdf d c :
  app_heap s !! p = Some d → app_heap s !! cdf = Some c →
  empty c = true
  ∨ (∀ col, col ∈ possible_city_columns → lookup_col col d = None) →
  add_bundesland what p g cdf s
  = Some (Ret (p, g),
          AppState (app_heap s)
            (app_log s ++
             if empty c then [Warning_cities_empty]
             else [Info_adding_bundesland what;
                   Warning_no_city_column what (columns d)])).
Proof.
  intros Hd Hc [Hec|Hnone]; apply add_bundesland_no_column; auto.
  right. apply first_column_None.
  intros x Hx [v Hv]%elem_of_columns. by rewrite (Hnone x Hx) in Hv.
Qed.


(** With a city table that has rows, both tables are merged on the same
    column: the first of [city], [City], [name], [Name], [stadt], [Stadt]
    that is a column of the facility table (so a table with a [name] and a
    [stadt] column is merged on [name]).  Each returned table is the
    enriched table of the merge on that column, a new object, or else the
    very object that was given; the GeoDataFrame is left alone when it has
    no rows.  Nothing is raised, and no stored table changes. *)
Theorem add_bundesland_uses_first_city_column s what p g cdf d gd c col :
  app_heap s !! p = Some d → app_heap s !! g = Some gd →
  app_heap s !! cdf = Some c →
  empty c = false →
  first_column possible_city_columns (columns d) = Some col →
  ∃ earlier later raw p' g' s',
    possible_city_columns = earlier ++ col :: later
    ∧ (∀ x, x ∈ earlier → lookup_col x d = None)
    ∧ lookup_col col d = Some raw
    ∧ add_bundesland what p g cdf s = Some (Ret (p', g'), s')
    ∧ (∀ l0 x, app_heap s !! l0 = Some x → app_heap s' !! l0 = Some x)
    ∧ match (merge_pure d c col).1 with
      | Enriched d' => p' ≠ p ∧ app_heap s' !! p' = Some d'
      | _ => p' = p
      end
    ∧ if empty gd then g' = g
      else match (merge_pure gd c col).1 with
           | Enriched gd' => g' ≠ g ∧ app_heap s' !! g' = Some gd'
           | _ => g' = g
           end.
Proof.
  intros Hd Hgd Hc Hec Hcol.
  destruct (first_column_Some _ _ _ Hcol)
    as (earlier & later & Hsplit & Hin & Hearlier).
  apply elem_of_columns in Hin as [raw Hraw].
  destruct (add_bundesland_runs s what p g cdf d gd c col)
    as (p' & g' & s' & Hrun & Hkeep & Hp & Hg); [done..|].
  exists earlier, later, raw, p', g', s'. split_and!; try done.
  intros x Hx. destruct (lookup_col x d) eqn:Hl; [|done].
  destruct (Hearlier x Hx). apply elem_of_columns. by rewrite Hl.
Qed.


(** The table and the GeoDataFrame agree.  When the cleaned cities of the
    GeoDataFrame all occur in the table (its rows are rows of the table)
    and the table comes back enriched, the GeoDataFrame comes back enriched
    too, and a facility has the same region in both. *)
Theorem add_bundesland_tables_agree s what p g cdf d gd c col raw raw_g
    p' g' s' dp bp :
  app_heap s !! p = Some d → app_heap s !! g = Some gd →
  app_heap s !! cdf = Some c →
  first_column possible_city_columns (columns d) = Some col →
  lookup_col col d = Some raw → lookup_col col gd = Some raw_g →
  empty gd = false →
  (∀ x, x ∈ clean raw_g → x ∈ clean raw) →
  add_bundesland what p g cdf s = Some (Ret (p', g'), s') →
  p' ≠ p → app_heap s' !! p' = Some dp →
  lookup_col "bundesland" dp = Some bp →
  g' ≠ g
  ∧ ∃ dg bg,
      app_heap s' !! g' = Some dg
      ∧ lookup_col "bundesland" dg = Some bg
      ∧ ∀ i j x, clean raw !! i = Some x → clean raw_g !! j = Some x →
                 bg !! j = bp !! i.
Proof.
  intros Hd Hgd Hc Hcol Hraw Hraw_g Hegd Hsub Hrun Hp' Hdp Hbp.
  destruct (empty c) eqn:Hec.
  { rewrite (add_bundesland_no_column s what p g cdf d c) in Hrun by auto.
    by injection Hrun as <- _ _. }
  destruct (add_bundesland_runs s what p g cdf d gd c col)
    as (p0 & g0 & s0 & Hrun0 & _ & Hp & Hg); [done..|].
  rewrite Hrun in Hrun0. injection Hrun0 as <- <- <-.
  rewrite Hegd in Hg.
  destruct (merge_pure d c col) as [[|d'|e] lg'] eqn:Hpure; simpl in Hp;
    [done| |done].
  destruct Hp as [_ Hd']. rewrite Hdp in Hd'. injection Hd' as <-.
  apply merge_pure_Enriched in Hpure
    as (raw0 & stadt & values & b' & lg1 & Hraw0 & Hstadt & Hvalues
        & Hphase1 & -> & _).
  rewrite Hraw in Hraw0. injection Hraw0 as <-.
  rewrite enriched_bundesland in Hbp. injection Hbp as <-.
  set (mapping := dict_zip (clean stadt) values) in *.
  destruct (fuzzy_phase_completes mapping (unique (clean stadt)) (clean raw_g))
    as (b2 & lg2 & Hphase2).
  { intros city Hin. apply Hsub in Hin.
    apply list_elem_of_lookup in Hin as [i Hi].
    destruct (fuzzy_phase_rowwise _ _ _ _ _ Hphase1 i city Hi) as (v & _ & Hv).
    by exists v. }
  rewrite (merge_pure_of_phase gd c col raw_g stadt values b2 lg2) in Hg
    by done.
  destruct Hg as [Hg' Hdg]. split; [done|].
  exists (enriched_frame gd col (clean raw_g) b2), b2.
  split_and!; [done|apply enriched_bundesland|].
  intros i j x Hi Hj.
  destruct (fuzzy_phase_rowwise _ _ _ _ _ Hphase1 i x Hi) as (v1 & -> & Hv1).
  destruct (fuzzy_phase_rowwise _ _ _ _ _ Hphase2 j x Hj) as (v2 & -> & Hv2).
  congruence.
Qed.

End AddBundesland.

Lemma add_bundesland_falls_back_witness :
  add_bundesland Parks 0 0 1 (AppState [parks; no_cities] [])
  = Some (Ret (0, 0),
          AppState [parks; no_cities]
            ([] ++ if empty no_cities then [Warning_cities_empty]
                   else [Info_adding_bundesland Parks;
                         Warning_no_city_column Parks (columns parks)])).
Proof.
  apply (add_bundesland_falls_back (AppState [parks; no_cities] []) Parks 0 0 1
           parks no_cities); [reflexivity|reflexivity|by left].
Defined.

Lemma add_bundesland_uses_first_city_column_witness :
  ∃ earlier later raw p' g' s',
    possible_city_columns = earlier ++ "name" :: later
    ∧ (∀ x, x ∈ earlier → lookup_col x parks_by_name = None)
    ∧ lookup_col "name" parks_by_name = Some raw
    ∧ add_bundesland Parks 0 0 1 (AppState [parks_by_name; cities] [])
      = Some (Ret (p', g'), s')
    ∧ (∀ l0 x, [parks_by_name; cities] !! l0 = Some x →
               app_heap s' !! l0 = Some x)
    ∧ match (merge_pure parks_by_name cities "name").1 with
      | Enriched d' => p' ≠ 0 ∧ app_heap s' !! p' = Some d'
      | _ => p' = 0
      end
    ∧ if empty parks_by_name then g' = 0
      else match (merge_pure parks_by_name cities "name").1 with
           | Enriched gd' => g' ≠ 0 ∧ app_heap s' !! g' = Some gd'
           | _ => g' = 0
           end.
Proof.
  apply (add_bundesland_uses_first_city_column
           (AppState [parks_by_name; cities] []) Parks 0 0 1
           parks_by_name parks_by_name cities "name"); reflexivity.
Defined.

Lemma add_bundesland_tables_agree_witness :
  ∃ p' g' s' dp bp,
    add_bundesland Parks 0 1 2
      (AppState [parks; [("city", [Some (py " BERLIN")])]; cities] [])
    = Some (Ret (p', g'), s')
    ∧ app_heap s' !! p' = Some dp
    ∧ lookup_col "bundesland" dp = Some bp
    ∧ g' ≠ 1
    ∧ ∃ dg bg,
        app_heap s' !! g' = Some dg
        ∧ lookup_col "bundesland" dg = Some bg
        ∧ ∀ i j x,
            clean [Some (py "berlin "); Some (py "Muenchen"); None] !! i = Some x →
            clean [Some (py " BERLIN")] !! j = Some x →
            bg !! j = bp !! i.
Proof.
  eexists _, _, _, _, _. do 3 (split; [vm_compute; reflexivity|]).
  eapply (add_bundesland_tables_agree
            (AppState [parks; [("city", [Some (py " BERLIN")])]; cities] [])
            Parks 0 1 2 parks [("city", [Some (py " BERLIN")])] cities "city"
            [Some (py "berlin "); Some (py "Muenchen"); None]
            [Some (py " BERLIN")]);
    [reflexivity|reflexivity|reflexivity|reflexivity|reflexivity|reflexivity
    |reflexivity| |vm_compute; reflexivity|done|vm_compute; reflexivity
    |vm_compute; reflexivity].
  apply Forall_forall. vm_compute. repeat constructor.
Defined.

(** ** Loading the city table (lines 102-116) *)

Section RunApp2.
Context {B : Type}.


Lemma app_run_alloc d (k : loc → App B) h lg :
  app_bind (run_M (alloc d)) k (AppState h lg)
  = k (length h) (AppState (h ++ [d]) lg).
Proof.
  unfold app_bind, run_M, alloc. simpl. by rewrite app_nil_r.
Qed.

End RunApp2.


Lemma nrows_set_col name c (d : DataFrame) x :
  lookup_col name d = Some x → length c = length x →
  nrows (set_col name c d) = nrows d.
Proof.
  destruct d as [|[n y] r]; simpl; [done|].
  case_decide; [|done]. by intros [= ->].
Qed.

Section StripTwice.
Context `{Unicode}.






End StripTwice.


Section LoadCities.
Context `{Unicode}.
Variable load_csv_data : string → App loc.
Variable process_geometry_column : loc → App loc.
Variable create_geodataframe : loc → App loc.
Variable to_numeric : Series → Series.





(** A facility file that gives no rows (as [load_csv_data] does for a file
    it cannot read): the loaders return two new empty tables; the city
    table is not loaded and nothing else is logged. *)
Theorem load_of_empty_file what s p s0 dp :
  load_csv_data (data_file what)
    (AppState (app_heap s) (app_log s ++ [Info_loading what]))
  = Some (Ret p, s0) →
  app_heap s0 !! p = Some dp → empty dp = true →
  load_with_bundesland load_csv_data process_geometry_column
    create_geodataframe to_numeric what s
  = Some (Ret (length (app_heap s0), S (length (app_heap s0))),
          AppState (app_heap s0 ++ [[]; []]) (app_log s0)).
Proof.
  intros Hcsv Hdp He.
  destruct s as [h lg], s0 as [h0 lg0]. cbn [app_heap app_log] in *.
  unfold load_with_bundesland, mbind, App_bind.
  rewrite app_run_say. unfold app_bind at 1. rewrite Hcsv.
  rewrite (app_run_deref p dp) by done. rewrite He.
  rewrite !app_run_alloc. rewrite <- app_assoc, length_app. simpl.
  by rewrite Nat.add_1_r.
Qed.

End LoadCities.



Lemma load_of_empty_file_witness :
  load_with_bundesland (read_files cities_file []) (λ l, mret l)
    (λ l, run_M (copy l)) id Cemetery (AppState [] [])
  = Some (Ret (1, 2), AppState ([[]] ++ [[]; []]) [Info_loading Cemetery]).
Proof.
  apply (load_of_empty_file (read_files cities_file []) (λ l, mret l)
           (λ l, run_M (copy l)) id Cemetery (AppState [] []) 0
           (AppState [[]] [Info_loading Cemetery]) []); reflexivity.
Defined.
